(** * WildDuck search layer: filter compiler and search-field migration

    A shallow embedding of

      - [uidRangeStringToQuery] and [prepareSearchFilter]
        (the search filter compiler), and
      - [buildSearchFromEnvelope] and [addSearchFields]
        (migrations/database/add_search_fields.js),

    followed by the properties of these functions.

    Conventions of the embedding.

    - A JavaScript string is a [string]; its characters are read as the
      charCode units U+0000..U+00FF, on which [toLowerCase], [trim] and the
      character classes [\d] and [\s] are defined as ECMAScript defines
      them.
    - A JavaScript number that holds an identifier is a [number]: a
      non-negative integer-valued double, [Infinity] or [NaN].
    - Code that can throw returns a [result]. *)

From Stdlib Require Import ZArith Lia Ascii.
From stdpp Require Import gmap strings list sorting pretty.


(** ** Characters and strings *)

Definition charCode (c : ascii) : N := N_of_ascii c.

(** [\d] *)
Definition isDigit (c : ascii) : bool :=
  ((48 <=? charCode c) && (charCode c <=? 57))%N.

(** White space and line terminators: TAB, LF, VT, FF, CR, SP, NBSP.
    This is what [String.prototype.trim] strips and what [\s] matches. *)
Definition isSpace (c : ascii) : bool :=
  (((9 <=? charCode c) && (charCode c <=? 13)) || (charCode c =? 32) || (charCode c =? 160))%N.

(** Upper-case letters: A..Z, and U+00C0..U+00DE except the
    multiplication sign U+00D7.  Each one has its lower-case form 32
    charCode points higher. *)
Definition isUpper (c : ascii) : bool :=
  (((65 <=? charCode c) && (charCode c <=? 90))
   || ((192 <=? charCode c) && (charCode c <=? 222) && negb (charCode c =? 215)))%N.

Definition lowerChar (c : ascii) : ascii :=
  if isUpper c then ascii_of_N (charCode c + 32) else c.

Fixpoint toLowerCase (s : string) : string :=
  match s with
  | EmptyString => EmptyString
  | String c r => String (lowerChar c) (toLowerCase r)
  end.

Fixpoint trimStart (s : string) : string :=
  match s with
  | EmptyString => EmptyString
  | String c r => if isSpace c then trimStart r else s
  end.

Fixpoint trimEnd (s : string) : string :=
  match s with
  | EmptyString => EmptyString
  | String c r =>
      match trimEnd r with
      | EmptyString => if isSpace c then EmptyString else String c EmptyString
      | r' => String c r'
      end
  end.

Definition trim (s : string) : string := trimEnd (trimStart s).

(** [s.includes(c)] for a one-character needle. *)
Fixpoint includesChar (c : ascii) (s : string) : bool :=
  match s with
  | EmptyString => false
  | String d r => Ascii.eqb d c || includesChar c r
  end.

(** [s.split(sep)] for a one-character separator. *)
Fixpoint splitOn (sep : ascii) (s : string) : list string :=
  match s with
  | EmptyString => [EmptyString]
  | String c r =>
      if Ascii.eqb c sep then EmptyString :: splitOn sep r
      else match splitOn sep r with
           | p :: ps => String c p :: ps
           | [] => [String c EmptyString]
           end
  end.

(** [names.join(sep)] *)
Fixpoint join (sep : string) (l : list string) : string :=
  match l with
  | [] => EmptyString
  | [x] => x
  | x :: r => x +:+ sep +:+ join sep r
  end.

(** Truthiness of a string: every string but the empty one. *)
Definition nonEmpty (s : string) : bool :=
  match s with EmptyString => false | _ => true end.

(** [s.split(/\s+/)]: the pieces between maximal runs of white space. *)
Fixpoint splitSpaces (inRun : bool) (s : string) : list string :=
  match s with
  | EmptyString => [EmptyString]
  | String c r =>
      if isSpace c then
        if inRun then splitSpaces true r
        else EmptyString :: splitSpaces true r
      else match splitSpaces false r with
           | p :: ps => String c p :: ps
           | [] => [String c EmptyString]
           end
  end.

(** [term.split(/\s+/).filter(w => w)] *)
Definition splitWords (term : string) : list string :=
  filter (fun w => nonEmpty w = true) (splitSpaces false term).

(** ** Numbers *)

(** The values [Number] produces on the pieces of an id-range
    expression: an integer-valued double, [Infinity], or [NaN]. *)
Inductive number : Type :=
| NFin (z : Z)
| NInf
| NNaN.

Global Instance number_eq_dec : EqDecision number.
Proof. solve_decision. Defined.

(** The double nearest to the natural number [n]
    (round to nearest, ties to even; overflow gives [Infinity]). *)
Definition toDouble (n : Z) : number :=
  if (n <? 2 ^ 53)%Z then NFin n
  else
    let e := (Z.log2 n - 52)%Z in
    let q := Z.shiftr n e in
    let r := (n - Z.shiftl q e)%Z in
    let half := Z.shiftl 1 (e - 1) in
    let q' :=
      if (r <? half)%Z then q
      else if (half <? r)%Z then (q + 1)%Z
      else if Z.even q then q else (q + 1)%Z in
    let v := Z.shiftl q' e in
    if (v <? 2 ^ 1024)%Z then NFin v else NInf.

Definition digitValue (c : ascii) : Z := (Z.of_N (charCode c) - 48)%Z.

Fixpoint decimalValue (acc : Z) (s : string) : Z :=
  match s with
  | EmptyString => acc
  | String c r => decimalValue (10 * acc + digitValue c) r
  end.

(** [/^\d+$/.test(s)] *)
Fixpoint onlyDigits (s : string) : bool :=
  match s with
  | EmptyString => true
  | String c r => isDigit c && onlyDigits r
  end.

Definition allDigits (s : string) : bool := nonEmpty s && onlyDigits s.

(** [Number(s)] on the pieces that [uidRangeStringToQuery] converts:
    a run of decimal digits is its value as a double, the empty string is
    0, and a piece that is no numeric literal (the star) is [NaN]. *)
Definition Number (s : string) : number :=
  match s with
  | EmptyString => NFin 0
  | _ => if onlyDigits s then toDouble (decimalValue 0 s) else NNaN
  end.

Definition isNaN (n : number) : bool :=
  match n with NNaN => true | _ => false end.

(** [a === b] on numbers: [NaN] is not equal to itself. *)
Definition strictEq (a b : number) : bool :=
  match a, b with
  | NFin x, NFin y => (x =? y)%Z
  | NInf, NInf => true
  | _, _ => false
  end.

(** Truthiness of a number: neither 0 nor [NaN]. *)
Definition numTruthy (n : number) : bool :=
  match n with
  | NFin z => negb (z =? 0)%Z
  | NInf => true
  | NNaN => false
  end.

(** The sign that [Array.prototype.sort] reads off [a - b].  A [NaN]
    difference (one operand [NaN], or [Infinity - Infinity]) counts as
    0, as the sort's comparison does. *)
Definition minusSign (a b : number) : Z :=
  match a, b with
  | NFin x, NFin y => Z.sgn (x - y)
  | NInf, NFin _ => 1
  | NFin _, NInf => (-1)
  | _, _ => 0
  end%Z.

(** [a === '*'] where [a] is a number: strict equality of a number and
    a string never holds. *)
Definition isStar (a : number) : bool := false.

(** The comparison function of the colon branch. *)
Definition starLast (a b : number) : Z :=
  if isStar a then 1%Z
  else if isStar b then (-1)%Z
  else minusSign a b.

(** [Array.prototype.sort(cmp)]: a stable sort. *)
Fixpoint insertBy {A} (cmp : A -> A -> Z) (x : A) (l : list A) : list A :=
  match l with
  | [] => [x]
  | y :: l' => if (cmp x y <=? 0)%Z then x :: y :: l' else y :: insertBy cmp x l'
  end.

Fixpoint sortBy {A} (cmp : A -> A -> Z) (l : list A) : list A :=
  match l with
  | [] => []
  | x :: l' => insertBy cmp x (sortBy cmp l')
  end.

(** ** The range parser *)

(** A uid constraint: a number, [{$in: [...]}], or [{$gte, $lte?}]. *)
Inductive uidQuery : Type :=
| UidEq (n : number)
| UidIn (l : list number)
| UidRange (gte : number) (lte : option number).

(** The second pattern, digits followed by any number of groups of a
    comma and digits: the pieces between commas are all non-empty runs
    of digits. *)
Definition isUidList (s : string) : bool :=
  forallb allDigits (splitOn "," s).

(** The third pattern, digits, a colon, then digits or a star:
    exactly two pieces around one colon, a non-empty run of digits on
    the left, a non-empty run of digits or a lone star on the right. *)
Definition isUidPair (s : string) : bool :=
  match splitOn ":" s with
  | [a; b] => allDigits a && (allDigits b || String.eqb b "*")
  | _ => false
  end.

Definition uidRangeStringToQuery (uidRange : option string) : option uidQuery :=
  match uidRange with
  | None => None
  | Some s =>
      if negb (nonEmpty s) then None
      else if allDigits s then Some (UidEq (Number s))
      else if isUidList s then
        Some (UidIn (sortBy minusSign (map Number (splitOn "," s))))
      else if isUidPair s then
        match sortBy starLast (map Number (splitOn ":" s)) with
        | [p0; p1] =>
            if strictEq p0 p1 then Some (UidEq p0)
            else Some (UidRange p0 (if isNaN p1 then None else Some p1))
        | _ => None
        end
      else None
  end.

(** ** Errors and storage *)

(** A JavaScript [Error] with the fields the compiler sets on it. *)
Record error : Type := {
  message : string;
  responseCode : option Z;
  code : option string;
  formattedMessage : option string
}.

Inductive result (A : Type) : Type :=
| Ok (a : A)
| Throw (err : error).
Arguments Ok {A} a.
Arguments Throw {A} err.

(** Identifiers are ObjectIds, read as the numbers their twelve bytes
    spell (the order MongoDB sorts them in). *)
Abbreviation ObjectId := N.

Record UserData : Type := {
  username : string;
  address : string;
  specialUse : list string
}.

(** The [specialUse] condition of a mailbox query. *)
Inductive SpecialUse : Type :=
| SuNin (l : list string)
| SuIn (l : list string).

(** [{ user, specialUse: { $nin | $in : [...] } }] *)
Record MailboxQuery : Type := {
  mq_user : ObjectId;
  mq_specialUse : SpecialUse
}.

(** The storage operations of [prepareSearchFilter].  Each one either
    returns or throws a storage error.
    - [users_findOne u]:
      [db.users.collection('users').findOne({_id: u}, ...)];
    - [mailboxes_countDocuments q]:
      [db.database.collection('mailboxes').countDocuments(q)];
    - [mailboxes_find q]: the [_id]s of
      [db.database.collection('mailboxes').find(q).project({_id: true}).toArray()]. *)
Record Db : Type := {
  users_findOne : ObjectId -> result (option UserData);
  mailboxes_countDocuments : MailboxQuery -> result N;
  mailboxes_find : MailboxQuery -> result (list ObjectId)
}.

(** ** Search payload and compiled filter *)

Module OrTerms.
Record t : Type := {
  query : option string;
  from : option string;
  to : option string;
  subject : option string
}.
(** [payload.or || {}] *)
Definition empty : t :=
  {| query := None; from := None; to := None; subject := None |}.
End OrTerms.

Module Payload.
(** The mailbox and thread identifiers are values the [ObjectId]
    constructor accepts; flags that are absent are [false]. *)
Record t : Type := {
  mailbox : option ObjectId;
  id : option string;
  thread : option ObjectId;
  or : option OrTerms.t;
  query : option string;
  datestart : option Z;
  dateend : option Z;
  from : option string;
  to : option string;
  subject : option string;
  attachments : bool;
  flagged : bool;
  unseen : bool;
  seen : bool;
  searchable : bool;
  minSize : option Z;
  maxSize : option Z
}.
End Payload.

(** A predicate of the [$and] and [$or] lists. *)
#[warnings="-register-all"]
Inductive Pred : Type :=
| PText (search : string)                 (* { $text: { $search } } *)
| PEq (field : string) (value : string)   (* { field: value } *)
| PRegex (field : string) (regex : string) (* { field: { $regex } } *)
| POr (l : list Pred)                     (* { $or: [...] } *)
| PAnd (l : list Pred).                   (* { $and: [...] } *)

(** [filter.mailbox] *)
Inductive MailboxScope : Type :=
| MbExact (mailbox : ObjectId)
| MbIn (ids : list ObjectId)
| MbNin (ids : list ObjectId).

(** [{ $gte?, $lte? }] *)
Record Bounds : Type := { gte : option Z; lte : option Z }.

Module Filter.
Record t : Type := {
  user : ObjectId;
  searchable : option bool;
  text_ : option string;          (* $text: { $search } *)
  mailbox : option MailboxScope;
  uid : option uidQuery;
  thread : option ObjectId;
  flagged : option bool;
  unseen : option bool;
  idate : option Bounds;
  and_ : option (list Pred);      (* $and *)
  ha : option bool;
  size : option Bounds;
  or_ : option (list Pred)        (* $or *)
}.

(** [{ user }] *)
Definition init (u : ObjectId) : t :=
  {| user := u; searchable := None; text_ := None; mailbox := None;
     uid := None; thread := None; flagged := None; unseen := None;
     idate := None; and_ := None; ha := None; size := None; or_ := None |}.

Definition set_searchable (v : bool) (f : t) : t :=
  {| user := user f; searchable := Some v; text_ := text_ f; mailbox := mailbox f;
     uid := uid f; thread := thread f; flagged := flagged f; unseen := unseen f;
     idate := idate f; and_ := and_ f; ha := ha f; size := size f; or_ := or_ f |}.
Definition set_text (v : string) (f : t) : t :=
  {| user := user f; searchable := searchable f; text_ := Some v; mailbox := mailbox f;
     uid := uid f; thread := thread f; flagged := flagged f; unseen := unseen f;
     idate := idate f; and_ := and_ f; ha := ha f; size := size f; or_ := or_ f |}.
Definition set_mailbox (v : MailboxScope) (f : t) : t :=
  {| user := user f; searchable := searchable f; text_ := text_ f; mailbox := Some v;
     uid := uid f; thread := thread f; flagged := flagged f; unseen := unseen f;
     idate := idate f; and_ := and_ f; ha := ha f; size := size f; or_ := or_ f |}.
Definition set_uid (v : uidQuery) (f : t) : t :=
  {| user := user f; searchable := searchable f; text_ := text_ f; mailbox := mailbox f;
     uid := Some v; thread := thread f; flagged := flagged f; unseen := unseen f;
     idate := idate f; and_ := and_ f; ha := ha f; size := size f; or_ := or_ f |}.
Definition set_thread (v : ObjectId) (f : t) : t :=
  {| user := user f; searchable := searchable f; text_ := text_ f; mailbox := mailbox f;
     uid := uid f; thread := Some v; flagged := flagged f; unseen := unseen f;
     idate := idate f; and_ := and_ f; ha := ha f; size := size f; or_ := or_ f |}.
Definition set_flagged (v : bool) (f : t) : t :=
  {| user := user f; searchable := searchable f; text_ := text_ f; mailbox := mailbox f;
     uid := uid f; thread := thread f; flagged := Some v; unseen := unseen f;
     idate := idate f; and_ := and_ f; ha := ha f; size := size f; or_ := or_ f |}.
Definition set_unseen (v : bool) (f : t) : t :=
  {| user := user f; searchable := searchable f; text_ := text_ f; mailbox := mailbox f;
     uid := uid f; thread := thread f; flagged := flagged f; unseen := Some v;
     idate := idate f; and_ := and_ f; ha := ha f; size := size f; or_ := or_ f |}.
Definition set_idate (v : Bounds) (f : t) : t :=
  {| user := user f; searchable := searchable f; text_ := text_ f; mailbox := mailbox f;
     uid := uid f; thread := thread f; flagged := flagged f; unseen := unseen f;
     idate := Some v; and_ := and_ f; ha := ha f; size := size f; or_ := or_ f |}.
Definition set_and (v : list Pred) (f : t) : t :=
  {| user := user f; searchable := searchable f; text_ := text_ f; mailbox := mailbox f;
     uid := uid f; thread := thread f; flagged := flagged f; unseen := unseen f;
     idate := idate f; and_ := Some v; ha := ha f; size := size f; or_ := or_ f |}.
Definition set_ha (v : bool) (f : t) : t :=
  {| user := user f; searchable := searchable f; text_ := text_ f; mailbox := mailbox f;
     uid := uid f; thread := thread f; flagged := flagged f; unseen := unseen f;
     idate := idate f; and_ := and_ f; ha := Some v; size := size f; or_ := or_ f |}.
Definition set_size (v : Bounds) (f : t) : t :=
  {| user := user f; searchable := searchable f; text_ := text_ f; mailbox := mailbox f;
     uid := uid f; thread := thread f; flagged := flagged f; unseen := unseen f;
     idate := idate f; and_ := and_ f; ha := ha f; size := Some v; or_ := or_ f |}.
Definition set_or (v : list Pred) (f : t) : t :=
  {| user := user f; searchable := searchable f; text_ := text_ f; mailbox := mailbox f;
     uid := uid f; thread := thread f; flagged := flagged f; unseen := unseen f;
     idate := idate f; and_ := and_ f; ha := ha f; size := size f; or_ := Some v |}.
End Filter.

(** ** The filter compiler *)

(** The error thrown again after a storage failure: the caught error
    with [responseCode], [code] and [formattedMessage] set. *)
Definition internalDatabaseError (err : error) : error :=
  {| message := message err;
     responseCode := Some 500%Z;
     code := Some "InternalDatabaseError";
     formattedMessage := Some "Database Error" |}.

Definition userNotFound : error :=
  {| message := "This user does not exist";
     responseCode := Some 404%Z;
     code := Some "UserNotFound";
     formattedMessage := Some "This user does not exist" |}.

(** Truthiness of the optional payload values. *)
Definition strTruthy (s : option string) : bool :=
  match s with Some s => nonEmpty s | None => false end.

Definition sizeTruthy (n : option Z) : bool :=
  match n with Some n => negb (n =? 0)%Z | None => false end.

(** Truthiness of [idQuery]: [undefined], 0 and [NaN] are falsy, an
    object is truthy. *)
Definition uidTruthy (q : option uidQuery) : bool :=
  match q with
  | None => false
  | Some (UidEq n) => numTruthy n
  | Some _ => true
  end.

(** [{ user, specialUse: { $nin: ['\\Junk', '\\Trash'] } }] *)
Definition nonJunkAndTrash (user : ObjectId) : MailboxQuery :=
  {| mq_user := user; mq_specialUse := SuNin ["\Junk"; "\Trash"] |}.

(** [{ user, specialUse: { $in: ['\\Junk', '\\Trash'] } }] *)
Definition junkAndTrash (user : ObjectId) : MailboxQuery :=
  {| mq_user := user; mq_specialUse := SuIn ["\Junk"; "\Trash"] |}.

(** The count probe: a failure is caught and ignored, which leaves
    [nonJunkAndTrashMailboxesCount] undefined. *)
Definition countProbe (db : Db) (user : ObjectId) : option N :=
  match mailboxes_countDocuments db (nonJunkAndTrash user) with
  | Ok n => Some n
  | Throw _ => None
  end.

(** [nonJunkAndTrashMailboxesCount && nonJunkAndTrashMailboxesCount < 200] *)
Definition useInQuery (count : option N) : bool :=
  match count with
  | Some n => (negb (n =? 0) && (n <? 200))%N
  | None => false
  end.

(** Lines 113-167: the mailbox scope. *)
Definition resolveMailbox (db : Db) (user : ObjectId) (payload : Payload.t)
    (filter : Filter.t) : result Filter.t :=
  match Payload.mailbox payload with
  | Some mailbox => Ok (Filter.set_mailbox (MbExact mailbox) filter)
  | None =>
      if Payload.searchable payload then
        if useInQuery (countProbe db user) then
          match mailboxes_find db (nonJunkAndTrash user) with
          | Ok mailboxes => Ok (Filter.set_mailbox (MbIn mailboxes) filter)
          | Throw err => Throw (internalDatabaseError err)
          end
        else
          match mailboxes_find db (junkAndTrash user) with
          | Ok mailboxes => Ok (Filter.set_mailbox (MbNin mailboxes) filter)
          | Throw err => Throw (internalDatabaseError err)
          end
      else Ok filter
  end.

(** [if (!filter.$and) filter.$and = []; filter.$and.push(p)] *)
Definition pushAnd (p : Pred) (f : Filter.t) : Filter.t :=
  Filter.set_and (default [] (Filter.and_ f) ++ [p]) f.

(** [if (!filter.$and) filter.$and = []] *)
Definition ensureAnd (f : Filter.t) : Filter.t :=
  Filter.set_and (default [] (Filter.and_ f)) f.

Definition emptyBounds : Bounds := {| gte := None; lte := None |}.

Definition withGte (v : Z) (b : option Bounds) : Bounds :=
  {| gte := Some v; lte := lte (default emptyBounds b) |}.

Definition withLte (v : Z) (b : option Bounds) : Bounds :=
  {| gte := gte (default emptyBounds b); lte := Some v |}.

Section Compiler.

(** [escapeRegexStr] of [./tools]: the pattern that matches its
    argument literally. *)
Variable escapeRegexStr : string -> string.

(** The predicate of a [from] term (lines 216-221 and 226-231). *)
Definition fromPred (term : string) : Pred :=
  if includesChar "@" term then PEq "search.from" term
  else PRegex "search.fromName" (escapeRegexStr term).

(** The predicate of a [to] term (lines 239-244 and 249-254). *)
Definition toPred (term : string) : Pred :=
  if includesChar "@" term then
    POr [PEq "search.to" term; PEq "search.cc" term]
  else
    let regex := escapeRegexStr term in
    POr [PRegex "search.toName" regex; PRegex "search.ccName" regex].

(** [{ 'search.subjectWords': { $regex: '^' + escapeRegexStr(word) } }] *)
Definition subjectWordPred (word : string) : Pred :=
  PRegex "search.subjectWords" ("^" +:+ escapeRegexStr word).

(** Lines 105-111, on [filter] and [orQuery]. *)
Definition stepQuery (payload : Payload.t) (orTerms : OrTerms.t)
    (f : Filter.t) (orQuery : list Pred) : Filter.t * list Pred :=
  if strTruthy (Payload.query payload) then
    let query := default "" (Payload.query payload) in
    (Filter.set_text query (Filter.set_searchable true f), orQuery)
  else if strTruthy (OrTerms.query orTerms) then
    (Filter.set_searchable true f,
     orQuery ++ [PText (default "" (OrTerms.query orTerms))])
  else (f, orQuery).

(** Lines 169-171. *)
Definition stepUid (idQuery : option uidQuery) (f : Filter.t) : Filter.t :=
  match Filter.mailbox f, idQuery with
  | Some _, Some q => if uidTruthy idQuery then Filter.set_uid q f else f
  | _, _ => f
  end.

(** Lines 173-175. *)
Definition stepThread (payload : Payload.t) (f : Filter.t) : Filter.t :=
  match Payload.thread payload with
  | Some thread => Filter.set_thread thread f
  | None => f
  end.

(** Lines 177-180. *)
Definition stepFlagged (payload : Payload.t) (f : Filter.t) : Filter.t :=
  if Payload.flagged payload then Filter.set_flagged true f else f.

(** Lines 182-185. *)
Definition stepSeen (payload : Payload.t) (f : Filter.t) : Filter.t :=
  if Payload.seen payload
  then Filter.set_searchable true (Filter.set_unseen false f) else f.

(** Lines 187-191: unseen takes precedence over seen. *)
Definition stepUnseen (payload : Payload.t) (f : Filter.t) : Filter.t :=
  if Payload.unseen payload
  then Filter.set_searchable true (Filter.set_unseen true f) else f.

(** Lines 193-195. *)
Definition stepSearchable (payload : Payload.t) (f : Filter.t) : Filter.t :=
  if Payload.searchable payload then Filter.set_searchable true f else f.

(** Lines 197-209. *)
Definition stepDates (payload : Payload.t) (f : Filter.t) : Filter.t :=
  let f :=
    match Payload.datestart payload with
    | Some datestart => Filter.set_idate (withGte datestart (Filter.idate f)) f
    | None => f
    end in
  match Payload.dateend payload with
  | Some dateend => Filter.set_idate (withLte dateend (Filter.idate f)) f
  | None => f
  end.

(** Lines 211-222. *)
Definition stepFrom (payload : Payload.t) (f : Filter.t) : Filter.t :=
  if strTruthy (Payload.from payload) then
    let term := trim (toLowerCase (default "" (Payload.from payload))) in
    pushAnd (fromPred term) f
  else f.

(** Lines 224-232. *)
Definition stepOrFrom (orTerms : OrTerms.t) (orQuery : list Pred) : list Pred :=
  if strTruthy (OrTerms.from orTerms) then
    let term := trim (toLowerCase (default "" (OrTerms.from orTerms))) in
    orQuery ++ [fromPred term]
  else orQuery.

(** Lines 234-245. *)
Definition stepTo (payload : Payload.t) (f : Filter.t) : Filter.t :=
  if strTruthy (Payload.to payload) then
    let term := trim (toLowerCase (default "" (Payload.to payload))) in
    pushAnd (toPred term) f
  else f.

(** Lines 247-255. *)
Definition stepOrTo (orTerms : OrTerms.t) (orQuery : list Pred) : list Pred :=
  if strTruthy (OrTerms.to orTerms) then
    let term := trim (toLowerCase (default "" (OrTerms.to orTerms))) in
    orQuery ++ [toPred term]
  else orQuery.

(** Lines 257-267: one prefix predicate per word. *)
Definition stepSubject (payload : Payload.t) (f : Filter.t) : Filter.t :=
  if strTruthy (Payload.subject payload) then
    let term := trim (toLowerCase (default "" (Payload.subject payload))) in
    let words := splitWords term in
    foldl (fun f word => pushAnd (subjectWordPred word) f) (ensureAnd f) words
  else f.

(** Lines 269-277. *)
Definition stepOrSubject (orTerms : OrTerms.t) (orQuery : list Pred) : list Pred :=
  if strTruthy (OrTerms.subject orTerms) then
    let term := trim (toLowerCase (default "" (OrTerms.subject orTerms))) in
    let words := splitWords term in
    match words with
    | [word] => orQuery ++ [subjectWordPred word]
    | _ => orQuery ++ [PAnd (map subjectWordPred words)]
    end
  else orQuery.

(** Lines 279-281. *)
Definition stepAttachments (payload : Payload.t) (f : Filter.t) : Filter.t :=
  if Payload.attachments payload then Filter.set_ha true f else f.

(** Lines 283-291. *)
Definition stepSizes (payload : Payload.t) (f : Filter.t) : Filter.t :=
  let f :=
    if sizeTruthy (Payload.minSize payload)
    then Filter.set_size (withGte (default 0%Z (Payload.minSize payload)) (Filter.size f)) f
    else f in
  if sizeTruthy (Payload.maxSize payload)
  then Filter.set_size (withLte (default 0%Z (Payload.maxSize payload)) (Filter.size f)) f
  else f.

(** Lines 293-295. *)
Definition stepOr (orQuery : list Pred) (f : Filter.t) : Filter.t :=
  match orQuery with
  | [] => f
  | _ => Filter.set_or orQuery f
  end.

(** Lines 169-297: everything after the mailbox scope. *)
Definition finishFilter (payload : Payload.t) (orTerms : OrTerms.t)
    (idQuery : option uidQuery) (f : Filter.t) (orQuery : list Pred) : Filter.t :=
  let f := stepUid idQuery f in
  let f := stepThread payload f in
  let f := stepFlagged payload f in
  let f := stepSeen payload f in
  let f := stepUnseen payload f in
  let f := stepSearchable payload f in
  let f := stepDates payload f in
  let f := stepFrom payload f in
  let orQuery := stepOrFrom orTerms orQuery in
  let f := stepTo payload f in
  let orQuery := stepOrTo orTerms orQuery in
  let f := stepSubject payload f in
  let orQuery := stepOrSubject orTerms orQuery in
  let f := stepAttachments payload f in
  let f := stepSizes payload f in
  stepOr orQuery f.

(** [prepareSearchFilter(db, user, payload)]: the pair
    [{ filter, query }], or the error thrown. *)
Definition prepareSearchFilter (db : Db) (user : ObjectId) (payload : Payload.t)
    : result (Filter.t * option string) :=
  let idQuery := uidRangeStringToQuery (Payload.id payload) in
  let orTerms := default OrTerms.empty (Payload.or payload) in
  match users_findOne db user with
  | Throw err => Throw (internalDatabaseError err)
  | Ok None => Throw userNotFound
  | Ok (Some userData) =>
      let '(f, orQuery) := stepQuery payload orTerms (Filter.init user) [] in
      match resolveMailbox db user payload f with
      | Throw err => Throw err
      | Ok f =>
          Ok (finishFilter payload orTerms idQuery f orQuery, Payload.query payload)
      end
  end.

End Compiler.

(** ** Stored values *)

(** The values found in a stored message: [undefined], [null],
    booleans, integers that print in plain decimal notation, strings
    and arrays. *)
#[warnings="-register-all"]
Inductive jsval : Type :=
| JUndefined
| JNull
| JBool (b : bool)
| JNum (n : Z)
| JStr (s : string)
| JArr (items : list jsval).

Definition truthy (v : jsval) : bool :=
  match v with
  | JUndefined | JNull => false
  | JBool b => b
  | JNum n => negb (n =? 0)%Z
  | JStr s => nonEmpty s
  | JArr _ => true
  end.

(** [Array.isArray(v)] *)
Definition isArray (v : jsval) : bool :=
  match v with JArr _ => true | _ => false end.

(** [v[i]] on a value that is neither [undefined] nor [null]: an
    array element, a character of a string, and [undefined] for
    everything else, also out of range. *)
Definition index (v : jsval) (i : nat) : jsval :=
  match v with
  | JArr items => default JUndefined (items !! i)
  | JStr s =>
      match String.get i s with
      | Some c => JStr (String c EmptyString)
      | None => JUndefined
      end
  | _ => JUndefined
  end.

(** The string a value turns into, by [toString()] and by [+] with a
    string.  An array joins its elements with commas, and its
    [undefined] and [null] elements are empty there. *)
Fixpoint toStr (v : jsval) : string :=
  match v with
  | JUndefined => "undefined"
  | JNull => "null"
  | JBool b => if b then "true" else "false"
  | JNum n => pretty n
  | JStr s => s
  | JArr items =>
      join "," (map (fun x => match x with
                              | JUndefined | JNull => ""
                              | _ => toStr x
                              end) items)
  end.

(** ** The envelope search extractor *)

(** A value of the [search] object: a list of addresses or a string. *)
Inductive sval : Type :=
| SList (l : list string)
| SStr (s : string).

Global Instance sval_eq_dec : EqDecision sval.
Proof. solve_decision. Defined.

(** The [search] object, by key. *)
Abbreviation SearchIndex := (gmap string sval).

(** One turn of the loop over the entries of an address list: the
    address of an entry with a truthy local part and a truthy domain,
    and the name of an entry with a truthy name that is not blank. *)
Definition collectEntry (acc : list string * list string) (entry : jsval)
    : list string * list string :=
  let '(addresses, names) := acc in
  let addresses :=
    if isArray entry && truthy (index entry 2) && truthy (index entry 3) then
      let addr := trim (toLowerCase (toStr (index entry 2) +:+ "@" +:+ toStr (index entry 3))) in
      if includesChar "@" addr then addresses ++ [addr] else addresses
    else addresses in
  let names :=
    if isArray entry && truthy (index entry 0) then
      let name := trim (toLowerCase (toStr (index entry 0))) in
      if nonEmpty name then names ++ [name] else names
    else names in
  (addresses, names).

(** Lines 112-136, 139-163 and 166-190: the same block for [from],
    [to] and [cc], which differ in the envelope position and in the two
    keys they set. *)
Definition extractList (entries : jsval) (addrKey nameKey : string)
    (search : SearchIndex) : SearchIndex :=
  match entries with
  | JArr ((_ :: _) as items) =>
      let '(addresses, names) := foldl collectEntry ([], []) items in
      let search :=
        match addresses with
        | [] => search
        | _ => <[addrKey := SList addresses]> search
        end in
      match names with
      | [] => search
      | _ => <[nameKey := SStr (join " " names)]> search
      end
  | _ => search
  end.

(** The [TypeError] of calling [toLowerCase] on a subject that is no
    string. *)
Definition notAFunction : error :=
  {| message := "subject.toLowerCase is not a function";
     responseCode := None; code := None; formattedMessage := None |}.

Definition buildSearchFromEnvelope (envelope subjectField : jsval)
    : result SearchIndex :=
  let search : SearchIndex := ∅ in
  if negb (truthy envelope) then Ok search
  else
    let search := extractList (index envelope 2) "from" "fromName" search in
    let search := extractList (index envelope 5) "to" "toName" search in
    let search := extractList (index envelope 6) "cc" "ccName" search in
    let subject :=
      if truthy subjectField then subjectField
      else JStr (toStr (if truthy (index envelope 1)
                        then index envelope 1 else JStr "")) in
    if truthy subject then
      match subject with
      | JStr s => Ok (<["subject" := SStr (trim (toLowerCase s))]> search)
      | _ => Throw notAFunction
      end
    else Ok search.

(** ** The migration *)

(** A stored message: the projected fields and the [search] field,
    [None] where the document has none. *)
Module Message.
Record t : Type := {
  envelope : jsval;
  subject : jsval;
  search : option SearchIndex
}.
(** [{ $set: { search } }] *)
Definition set_search (s : SearchIndex) (doc : t) : t :=
  {| envelope := envelope doc; subject := subject doc; search := Some s |}.
End Message.

(** The [messages] collection, by [_id]. *)
Abbreviation Collection := (gmap N Message.t).

(** [{ search: { $exists: false }, _id: { $lte, $gt? } }] *)
Record MessageQuery : Type := { q_lte : N; q_gt : option N }.

Definition matches (q : MessageQuery) (id : N) (doc : Message.t) : bool :=
  match Message.search doc with
  | None =>
      (id <=? q_lte q)%N
      && match q_gt q with Some lastId => (lastId <? id)%N | None => true end
  | Some _ => false
  end.

Definition ascending (x y : N * Message.t) : Prop := (x.1 ≤ y.1)%N.
Definition descending (x y : N * Message.t) : Prop := (y.1 ≤ x.1)%N.

Global Instance ascending_dec x y : Decision (ascending x y).
Proof. unfold ascending. apply _. Defined.
Global Instance descending_dec x y : Decision (descending x y).
Proof. unfold descending. apply _. Defined.

(** [collection.find({}).sort({ _id: -1 }).limit(1).toArray()] *)
Definition findMax (c : Collection) : list (N * Message.t) :=
  take 1 (merge_sort descending (map_to_list c)).

(** [collection.countDocuments(q)] *)
Definition countDocuments (q : MessageQuery) (c : Collection) : nat :=
  length (filter (fun kd => matches q kd.1 kd.2 = true) (map_to_list c)).

Definition BATCH_SIZE : nat := 1000.

(** [collection.find(q, ...).sort({ _id: 1 }).limit(BATCH_SIZE).toArray()] *)
Definition findBatch (q : MessageQuery) (c : Collection) : list (N * Message.t) :=
  take BATCH_SIZE
    (merge_sort ascending
       (filter (fun kd => matches q kd.1 kd.2 = true) (map_to_list c))).

(** Lines 66-75: one staged update per document of the batch; the
    first extractor failure ends the run. *)
Fixpoint buildOps (batch : list (N * Message.t)) : result (list (N * SearchIndex)) :=
  match batch with
  | [] => Ok []
  | doc :: rest =>
      match buildSearchFromEnvelope (Message.envelope doc.2) (Message.subject doc.2) with
      | Throw err => Throw err
      | Ok search =>
          match buildOps rest with
          | Throw err => Throw err
          | Ok ops => Ok ((doc.1, search) :: ops)
          end
      end
  end.

(** [updateOne: { filter: { _id }, update: { $set: { search } } }]:
    the collection after it, and whether a document was modified. *)
Definition updateOne (op : N * SearchIndex) (c : Collection) : Collection * nat :=
  match c !! op.1 with
  | Some doc =>
      if decide (Message.search doc = Some op.2) then (c, 0)
      else (<[op.1 := Message.set_search op.2 doc]> c, 1)
  | None => (c, 0)
  end.

(** [collection.bulkWrite(bulkOps, { ordered: false })]: the
    collection after it and [result.modifiedCount]. *)
Definition bulkWrite (ops : list (N * SearchIndex)) (c : Collection) : Collection * nat :=
  foldl (fun acc op => let '(c', n) := updateOne op acc.1 in (c', acc.2 + n)) (c, 0) ops.

(** What a run does to the store, in order. *)
Inductive Event : Type :=
| EvReadMax (maxId : option N)
| EvCount (q : MessageQuery) (total : nat)
| EvFetch (q : MessageQuery) (batch : list (N * Message.t))
| EvBulkWrite (ops : list (N * SearchIndex)) (before after : Collection).

Inductive Status : Type :=
| Done
| Aborted (err : error)
| OutOfFuel.

(** The end of a run: how it ended, the collection it leaves, the
    count it reports and its storage operations. *)
Record Run : Type := {
  status : Status;
  store : Collection;
  processedCount : nat;
  events : list Event
}.

(** The variables of the loop, the collection and the clock. *)
Record LoopState : Type := {
  ls_store : Collection;
  ls_tick : nat;
  lastId : option N;
  ls_processedCount : nat;
  batchNumber : nat;
  ls_events : list Event
}.

Section Migration.

(** Other clients of the store: [env t c] is the collection that the
    storage operation number [t] of the run finds, when the operation
    before it left [c]. *)
Variable env : nat -> Collection -> Collection.

(** Lines 40-90, the [while (running)] loop; [fuel] bounds the number
    of batches.  The storage calls are taken to return: a call that
    rejects would end the run at that call. *)
Fixpoint loop (maxIdAtStart : N) (fuel : nat) (st : LoopState) : Run :=
  match fuel with
  | O => {| status := OutOfFuel; store := ls_store st;
            processedCount := ls_processedCount st; events := ls_events st |}
  | S fuel =>
      let query := {| q_lte := maxIdAtStart; q_gt := lastId st |} in
      let c := env (ls_tick st) (ls_store st) in
      let batch := findBatch query c in
      let evs := ls_events st ++ [EvFetch query batch] in
      match last batch with
      | None =>
          {| status := Done; store := c;
             processedCount := ls_processedCount st; events := evs |}
      | Some lastDoc =>
          match buildOps batch with
          | Throw err =>
              {| status := Aborted err; store := c;
                 processedCount := ls_processedCount st; events := evs |}
          | Ok bulkOps =>
              let c1 := env (S (ls_tick st)) c in
              let '(c2, modifiedCount) := bulkWrite bulkOps c1 in
              loop maxIdAtStart fuel
                {| ls_store := c2;
                   ls_tick := S (S (ls_tick st));
                   lastId := Some lastDoc.1;
                   ls_processedCount := ls_processedCount st + modifiedCount;
                   batchNumber := S (batchNumber st);
                   ls_events := evs ++ [EvBulkWrite bulkOps c1 c2] |}
          end
      end
  end.

(** [addSearchFields()] on the collection [c]. *)
Definition addSearchFields (fuel : nat) (c : Collection) : Run :=
  let c := env 0 c in
  match findMax c with
  | [] =>
      {| status := Done; store := c; processedCount := 0;
         events := [EvReadMax None] |}
  | maxIdDoc :: _ =>
      let maxIdAtStart := maxIdDoc.1 in
      let query := {| q_lte := maxIdAtStart; q_gt := None |} in
      let c := env 1 c in
      let totalToMigrate := countDocuments query c in
      let evs := [EvReadMax (Some maxIdAtStart); EvCount query totalToMigrate] in
      if Nat.eqb totalToMigrate 0 then
        {| status := Done; store := c; processedCount := 0; events := evs |}
      else
        loop maxIdAtStart fuel
          {| ls_store := c; ls_tick := 2; lastId := None;
             ls_processedCount := 0; batchNumber := 0; ls_events := evs |}
  end.

End Migration.

(** No other client writes during the run. *)
Definition quiet : nat -> Collection -> Collection := fun _ c => c.

(** * Specification-level definitions

    The notions the properties below are stated with, and the sample
    data of their instances. *)

(** The order of the numbers that are not [NaN]. *)
Definition numLe (a b : number) : Prop :=
  match a, b with
  | NFin x, NFin y => (x ≤ y)%Z
  | NFin _, NInf => True
  | NInf, NInf => True
  | _, _ => False
  end.

(** A projection of the filter that a setter leaves as it is. *)
Definition ignores {B V} (proj : Filter.t → B) (set : V → Filter.t → Filter.t) : Prop :=
  ∀ v f, proj (set v f) = proj f.

(** The listing that the scope resolution fetches. *)
Definition listing (db : Db) (user : ObjectId) : result (list ObjectId) :=
  mailboxes_find db
    (if useInQuery (countProbe db user)
     then nonJunkAndTrash user else junkAndTrash user).

(** The normalized term of a text filter. *)
Definition termOf (s : option string) : string :=
  trim (toLowerCase (default "" s)).

Section Terms.
Variable escapeRegexStr : string → string.

(** The predicates that the mandatory text filters add to [$and],
    in the order they are added. *)
Definition fromTerms (p : Payload.t) : list Pred :=
  if strTruthy (Payload.from p)
  then [fromPred escapeRegexStr (termOf (Payload.from p))] else [].

Definition toTerms (p : Payload.t) : list Pred :=
  if strTruthy (Payload.to p)
  then [toPred escapeRegexStr (termOf (Payload.to p))] else [].

Definition subjectTerms (p : Payload.t) : list Pred :=
  if strTruthy (Payload.subject p)
  then map (subjectWordPred escapeRegexStr) (splitWords (termOf (Payload.subject p)))
  else [].
End Terms.

(** The address that an entry of an address list contributes. *)
Definition addressOf (entry : jsval) : option string :=
  if isArray entry && truthy (index entry 2) && truthy (index entry 3)
  then Some (trim (toLowerCase (toStr (index entry 2) +:+ "@" +:+ toStr (index entry 3))))
  else None.

(** The name that an entry of an address list contributes. *)
Definition nameOf (entry : jsval) : option string :=
  if isArray entry && truthy (index entry 0) then
    let name := trim (toLowerCase (toStr (index entry 0))) in
    if nonEmpty name then Some name else None
  else None.

Definition addressesOf (entries : jsval) : list string :=
  match entries with JArr items => omap addressOf items | _ => [] end.

Definition namesOf (entries : jsval) : list string :=
  match entries with JArr items => omap nameOf items | _ => [] end.

(** A field of the [search] object: absent for an empty list. *)
Definition addressField (addresses : list string) : option sval :=
  match addresses with [] => None | _ => Some (SList addresses) end.

Definition nameField (names : list string) : option sval :=
  match names with [] => None | _ => Some (SStr (join " " names)) end.

(** The subject that the extractor reads: the subject field when it
    is truthy, else the envelope's. *)
Definition subjectOf (envelope subjectField : jsval) : jsval :=
  if truthy subjectField then subjectField
  else JStr (toStr (if truthy (index envelope 1) then index envelope 1 else JStr "")).

(** The three address lists of an envelope, extracted in turn. *)
Definition extractLists (envelope : jsval) : SearchIndex :=
  extractList (index envelope 6) "cc" "ccName"
    (extractList (index envelope 5) "to" "toName"
       (extractList (index envelope 2) "from" "fromName" ∅)).

(** A subject field that is falsy or a string. *)
Definition subjectUsable (subjectField : jsval) : Prop :=
  truthy subjectField = false ∨ ∃ t, subjectField = JStr t.

(** The keys of the [search] object. *)
Definition searchKeys : gset string :=
  {[ "from"; "fromName"; "to"; "toName"; "cc"; "ccName"; "subject" ]}.

(** The keys of the name fields, which the patterns are matched
    against. *)
Definition nameKeys : list string := ["fromName"; "toName"; "ccName"].

(** The documents that a query selects, before sorting. *)
Definition selected (q : MessageQuery) (c : Collection) : list (N * Message.t) :=
  filter (λ kd, matches q kd.1 kd.2 = true) (map_to_list c).

(** The document that a list of updates makes of [doc], stored at [id]. *)
Definition applyOps (ops : list (N * SearchIndex)) (id : N) (doc : Message.t) : Message.t :=
  foldl (λ d op, if decide (op.1 = id) then Message.set_search op.2 d else d) doc ops.

(** A storage operation that stays at or below the bound [m]: a
    count or a fetch bounded by [m], and a bulk write whose updates are
    keyed at or below [m] and which leaves every document above [m] as
    it is.  Reading the maximum again is not such an operation. *)
Definition withinBound (m : N) (e : Event) : Prop :=
  match e with
  | EvReadMax _ => False
  | EvCount q _ => q_lte q = m
  | EvFetch q batch => q_lte q = m ∧ Forall (λ kd, (kd.1 ≤ m)%N) batch
  | EvBulkWrite ops before after =>
      Forall (λ op, (op.1 ≤ m)%N) ops
      ∧ ∀ id, (m < id)%N → after !! id = before !! id
  end.

(** An operation that reads and neither fetches nor writes. *)
Definition readsOnly (e : Event) : Prop :=
  match e with
  | EvReadMax _ | EvCount _ _ => True
  | EvFetch _ _ | EvBulkWrite _ _ _ => False
  end.

(** Every document has a [search] field. *)
Definition allIndexed (c : Collection) : Prop :=
  ∀ id doc, c !! id = Some doc → is_Some (Message.search doc).

(** Every document without a [search] field, at or below [m], lies
    beyond the cursor. *)
Definition pendingBeyond (m : N) (lastId : option N) (c : Collection) : Prop :=
  ∀ id doc, c !! id = Some doc → Message.search doc = None → (id ≤ m)%N →
    match lastId with Some l => (l < id)%N | None => True end.

Definition boundedBy (m : N) (c : Collection) : Prop :=
  ∀ id, is_Some (c !! id) → (id ≤ m)%N.

(** The identifiers of the documents without a [search] field. *)
Definition pending (c : Collection) : gset N :=
  dom (filter (λ kd, Message.search kd.2 = None) c).

(** A store whose subject fields are strings, or falsy. *)
Definition usable (c : Collection) : Prop :=
  ∀ id doc, c !! id = Some doc → subjectUsable (Message.subject doc).

(** ** Patterns in the store

    How the message store matches [{ $regex: pattern }], a pattern
    that comes without [$options], against a string: it looks for the
    pattern anywhere in the string, and a letter matches in its own
    case only.  The reading is given for the patterns of letters,
    digits and spaces, which hold no operator and stand for
    themselves. *)

Definition isPlain (c : ascii) : bool :=
  (isDigit c
   || ((65 <=? charCode c) && (charCode c <=? 90))
   || ((97 <=? charCode c) && (charCode c <=? 122))
   || (charCode c =? 32))%N.

Fixpoint allPlain (s : string) : bool :=
  match s with
  | EmptyString => true
  | String c r => isPlain c && allPlain r
  end.

Fixpoint startsWith (p s : string) : bool :=
  match p, s with
  | EmptyString, _ => true
  | String a p', String b s' => Ascii.eqb a b && startsWith p' s'
  | String _ _, EmptyString => false
  end.

Fixpoint includes (p s : string) : bool :=
  startsWith p s
  || match s with
     | EmptyString => false
     | String _ r => includes p r
     end.

(** [None] for a pattern outside the fragment. *)
Definition regexTest (pattern s : string) : option bool :=
  if allPlain pattern then Some (includes pattern s) else None.

(** A pattern that does not tell apart two strings that differ in
    letter case only. *)
Definition caseInsensitive (pattern : string) : Prop :=
  ∀ s s', toLowerCase s = toLowerCase s' → regexTest pattern s = regexTest pattern s'.

(** ** Sample data *)

Definition someUser : UserData :=
  {| username := "jane"; address := "jane@example.com"; specialUse := [] |}.

Definition storageFailure : error :=
  {| message := "connection closed";
     responseCode := None; code := None; formattedMessage := None |}.

(** A store that resolves every owner, answers the count with
    [count] and the two listings with [eligible] and [excluded]. *)
Definition dbWith (count : result N) (eligible excluded : result (list ObjectId)) : Db :=
  {| users_findOne := λ _, Ok (Some someUser);
     mailboxes_countDocuments := λ _, count;
     mailboxes_find := λ q,
       match mq_specialUse q with
       | SuNin _ => eligible
       | SuIn _ => excluded
       end |}.

(** The payload with the three text filters, the id range and the
    three flags given, and nothing else. *)
Definition payloadOf (id from to subject : option string)
    (seen unseen searchable : bool) : Payload.t :=
  {| Payload.mailbox := None; Payload.id := id; Payload.thread := None;
     Payload.or := None; Payload.query := None;
     Payload.datestart := None; Payload.dateend := None;
     Payload.from := from; Payload.to := to; Payload.subject := subject;
     Payload.attachments := false; Payload.flagged := false;
     Payload.unseen := unseen; Payload.seen := seen;
     Payload.searchable := searchable;
     Payload.minSize := None; Payload.maxSize := None |}.

(** [{ searchable: true }] *)
Definition searchablePayload : Payload.t :=
  payloadOf None None None None false false true.

(** [{ from: "alice@x.com" }] *)
Definition alicePayload : Payload.t :=
  payloadOf None (Some "alice@x.com") None None false false false.

(** [{ from: " Jane ", to: "BOB@x.com" }] *)
Definition janeToBobPayload : Payload.t :=
  payloadOf None (Some " Jane ") (Some "BOB@x.com") None false false false.

(** [{ from: "Jane" }] *)
Definition janePayload : Payload.t :=
  payloadOf None (Some "Jane") None None false false false.

(** [{ seen: true, unseen: true, searchable: true }] *)
Definition seenUnseenPayload : Payload.t :=
  payloadOf None None None None true true true.

(** [{ id: "5:10" }] *)
Definition idOnlyPayload : Payload.t :=
  payloadOf (Some "5:10") None None None false false false.

(** [{ subject: "Hello  World", or: { subject: "re" } }] *)
Definition subjectPayload : Payload.t :=
  {| Payload.mailbox := None; Payload.id := None; Payload.thread := None;
     Payload.or := Some {| OrTerms.query := None; OrTerms.from := None;
                           OrTerms.to := None; OrTerms.subject := Some "re" |};
     Payload.query := None;
     Payload.datestart := None; Payload.dateend := None;
     Payload.from := None; Payload.to := None;
     Payload.subject := Some "Hello  World";
     Payload.attachments := false; Payload.flagged := false;
     Payload.unseen := false; Payload.seen := false;
     Payload.searchable := false;
     Payload.minSize := None; Payload.maxSize := None |}.

(** An envelope with the one list [from]. *)
Definition envelopeFrom (entries : list jsval) : jsval :=
  JArr [JNull; JNull; JArr entries].

(** An entry of an address list. *)
Definition entry (name local domain : jsval) : jsval :=
  JArr [name; JNull; local; domain].

Definition janeDoe : jsval := entry (JStr "Jane Doe") (JStr "jane") (JStr "example.com").
Definition noDomain : jsval := entry (JStr "Jane Doe") (JStr "jane") JNull.
Definition blankName : jsval := entry (JStr " ") (JStr "jane") (JStr "example.com").
Definition bob : jsval := entry (JStr " Bob ") (JStr "Bob") (JStr "Example.ORG").

(** Three stored messages, the second one migrated already. *)
Definition sampleMessages : Collection :=
  {[ 1%N := {| Message.envelope := envelopeFrom [janeDoe];
               Message.subject := JStr "Hello";
               Message.search := None |};
     2%N := {| Message.envelope := envelopeFrom [bob];
               Message.subject := JUndefined;
               Message.search := Some {[ "subject" := SStr "kept" ]} |};
     3%N := {| Message.envelope := JNull;
               Message.subject := JStr "World";
               Message.search := None |} ]}.

(** ** Further notions *)

(** A constraint without [NaN], with its list in ascending order and
    its range from a lower to a strictly higher bound. *)
Definition wellFormedUid (q : uidQuery) : Prop :=
  match q with
  | UidEq n => n ≠ NNaN
  | UidIn l => Forall (λ n, n ≠ NNaN) l ∧ Sorted numLe l ∧ 2 ≤ length l
  | UidRange lo hi =>
      lo ≠ NNaN
      ∧ match hi with
        | Some h => numLe lo h ∧ lo ≠ h
        | None => True
        end
  end.

(** The [or] bundle of a payload. *)
Definition orTermsOf (p : Payload.t) : OrTerms.t :=
  default OrTerms.empty (Payload.or p).

(** A bound that is given, with 0 counting as not given. *)
Definition sizeBound (n : option Z) : option Z :=
  if sizeTruthy n then n else None.

(** The range predicate of two optional bounds: absent without
    bounds. *)
Definition boundsOf (lo hi : option Z) : option Bounds :=
  match lo, hi with
  | None, None => None
  | _, _ => Some {| gte := lo; lte := hi |}
  end.

(** An optional flag of the filter. *)
Definition flagOf (b : bool) : option bool := if b then Some true else None.

Section Branches.
Variable escapeRegexStr : string → string.

(** The branches of [$or], in the order they are added. *)
Definition orBranches (p : Payload.t) : list Pred :=
  let o := orTermsOf p in
  (if negb (strTruthy (Payload.query p)) && strTruthy (OrTerms.query o)
   then [PText (default "" (OrTerms.query o))] else [])
  ++ (if strTruthy (OrTerms.from o)
      then [fromPred escapeRegexStr (termOf (OrTerms.from o))] else [])
  ++ (if strTruthy (OrTerms.to o)
      then [toPred escapeRegexStr (termOf (OrTerms.to o))] else [])
  ++ (if strTruthy (OrTerms.subject o)
      then [match splitWords (termOf (OrTerms.subject o)) with
            | [word] => subjectWordPred escapeRegexStr word
            | words => PAnd (map (subjectWordPred escapeRegexStr) words)
            end]
      else []).
End Branches.

(** A string that neither starts nor ends with white space. *)
Definition startsClean (s : string) : bool :=
  match s with
  | EmptyString => true
  | String c _ => negb (isSpace c)
  end.

Fixpoint endsClean (s : string) : bool :=
  match s with
  | EmptyString => true
  | String c r =>
      match r with
      | EmptyString => negb (isSpace c)
      | _ => endsClean r
      end
  end.

(** A string as the index holds it: in lower case, with no white
    space around it. *)
Definition normalized (s : string) : Prop :=
  toLowerCase s = s ∧ trim s = s.

Definition normalizedValue (v : sval) : Prop :=
  match v with
  | SStr s => normalized s
  | SList l => Forall normalized l
  end.

(** The document that the migration makes of [doc]: with the
    extractor's [search] field when it had none. *)
Definition migrated (doc : Message.t) : Message.t :=
  match Message.search doc with
  | Some _ => doc
  | None =>
      match buildSearchFromEnvelope (Message.envelope doc) (Message.subject doc) with
      | Ok search => Message.set_search search doc
      | Throw _ => doc
      end
  end.

(** A store in which every document of [c0] is as it was or
    migrated, and which has no other document. *)
Definition partlyMigrated (c0 c : Collection) : Prop :=
  ∀ id, c !! id = c0 !! id ∨ c !! id = migrated <$> c0 !! id.

(** A fetched batch: at most [BATCH_SIZE] documents, in strictly
    ascending order of identifier, each without a [search] field and
    with its identifier beyond the cursor and at or below the bound. *)
Definition batchShape (e : Event) : Prop :=
  match e with
  | EvFetch q batch =>
      length batch ≤ BATCH_SIZE
      ∧ StronglySorted (λ x y, (x.1 < y.1)%N) batch
      ∧ Forall (λ kd, Message.search kd.2 = None
                      ∧ (kd.1 ≤ q_lte q)%N
                      ∧ match q_gt q with
                        | Some lastId => (lastId < kd.1)%N
                        | None => True
                        end) batch
  | _ => True
  end.

(** The documents of a fetch. *)
Definition batchOf (e : Event) : list (N * Message.t) :=
  match e with
  | EvFetch _ batch => batch
  | _ => []
  end.

(** The documents that a run has fetched, in the order it fetched
    them. *)
Definition fetched (evs : list Event) : list (N * Message.t) :=
  evs ≫= batchOf.

(** The cursor after the operations [evs]: the identifier of the last
    document fetched, if any. *)
Definition cursorOf (evs : list Event) : option N :=
  fst <$> last (fetched evs).

(** Cursor-based pagination below the bound [m]: every fetch among
    [evs] is bounded by [m], starts beyond the last document fetched
    before it, and has the shape of a batch; the documents fetched up
    to and with it are in strictly ascending order. *)
Definition pagedBy (m : N) (evs : list Event) : Prop :=
  ∀ pre q batch post,
    evs = pre ++ EvFetch q batch :: post →
    q = {| q_lte := m; q_gt := cursorOf pre |}
    ∧ batchShape (EvFetch q batch)
    ∧ StronglySorted (λ x y, (x.1 < y.1)%N) (fetched pre ++ batch).

(** A document on which the extractor throws: a truthy envelope with
    a truthy subject field that is no string. *)
Definition unextractable (doc : Message.t) : Prop :=
  truthy (Message.envelope doc) = true
  ∧ truthy (Message.subject doc) = true
  ∧ ∀ t, Message.subject doc ≠ JStr t.

(** An operation other than the fetch of a batch on which the
    extractor throws. *)
Definition extractable (e : Event) : Prop :=
  match e with
  | EvFetch _ batch => ∃ ops, buildOps batch = Ok ops
  | _ => True
  end.

(** The room left for the cursor below the bound [m]. *)
Definition cursorRoom (m : N) (lastId : option N) : nat :=
  match lastId with
  | None => S (N.to_nat m)
  | Some l => N.to_nat m - N.to_nat l
  end.

(** A payload with a mailbox, an id range, a thread, both full-text
    queries, every text filter, both date bounds, a size bound of 0 and
    one of 100, and the flags [flagged], [attachments] and [seen]. *)
Definition richPayload : Payload.t :=
  {| Payload.mailbox := Some 7%N; Payload.id := Some "5:10";
     Payload.thread := Some 3%N;
     Payload.or := Some {| OrTerms.query := Some "offer";
                           OrTerms.from := Some "Ann";
                           OrTerms.to := Some "b@c.org";
                           OrTerms.subject := Some "re" |};
     Payload.query := Some "hello";
     Payload.datestart := Some 10%Z; Payload.dateend := Some 20%Z;
     Payload.from := Some "alice@x.com"; Payload.to := None;
     Payload.subject := None;
     Payload.attachments := true; Payload.flagged := true;
     Payload.unseen := false; Payload.seen := true;
     Payload.searchable := false;
     Payload.minSize := Some 0%Z; Payload.maxSize := Some 100%Z |}.

(** A store whose mailbox collection fails at every operation. *)
Definition dbMailboxesDown : Db :=
  dbWith (Throw storageFailure) (Throw storageFailure) (Throw storageFailure).

(** Another client that inserts a message above the bound before the
    first fetch of a run. *)
Definition lateInsert : nat → Collection → Collection :=
  λ t c,
    if Nat.eqb t 2
    then <[9%N := {| Message.envelope := JNull; Message.subject := JNull;
                     Message.search := None |}]> c
    else c.

(** Two stored messages, the second one with a number as its subject. *)
Definition brokenMessages : Collection :=
  {[ 1%N := {| Message.envelope := envelopeFrom [janeDoe];
               Message.subject := JStr "Hello";
               Message.search := None |};
     2%N := {| Message.envelope := envelopeFrom [bob];
               Message.subject := JNum 5;
               Message.search := None |} ]}.

(** * Properties *)

(** ** The range parser *)

Lemma toDouble_not_NaN n : toDouble n ≠ NNaN.
Proof.
  unfold toDouble. destruct (n <? 2 ^ 53)%Z; [done|].
  cbv zeta. by destruct (_ <? 2 ^ 1024)%Z.
Qed.

Lemma Number_digits s : onlyDigits s = true → Number s ≠ NNaN.
Proof.
  intros Hd. destruct s as [|c r]; [done|].
  unfold Number. rewrite Hd. apply toDouble_not_NaN.
Qed.

Lemma allDigits_only s : allDigits s = true → onlyDigits s = true.
Proof. unfold allDigits. by intros [_ ?]%andb_prop. Qed.

Lemma allDigits_nonEmpty s : allDigits s = true → nonEmpty s = true.
Proof. unfold allDigits. by intros [? _]%andb_prop. Qed.

Lemma minusSign_le a b :
  a ≠ NNaN → b ≠ NNaN → (minusSign a b <=? 0)%Z = true → numLe a b.
Proof.
  destruct a, b; simpl; try done; intros _ _ H%Z.leb_le; lia.
Qed.

Lemma minusSign_gt a b :
  a ≠ NNaN → b ≠ NNaN → (minusSign a b <=? 0)%Z = false → numLe b a.
Proof.
  destruct a, b; simpl; try done; intros _ _ H%Z.leb_gt; lia.
Qed.

Lemma insertBy_Permutation {A} (cmp : A → A → Z) x l :
  insertBy cmp x l ≡ₚ x :: l.
Proof.
  induction l as [|y l IH]; simpl; [done|].
  destruct (cmp x y <=? 0)%Z; [done|].
  rewrite IH. apply Permutation_swap.
Qed.

Lemma sortBy_Permutation {A} (cmp : A → A → Z) l : sortBy cmp l ≡ₚ l.
Proof.
  induction l as [|x l IH]; simpl; [done|].
  by rewrite insertBy_Permutation, IH.
Qed.

Lemma insertBy_Sorted x l :
  x ≠ NNaN → Forall (λ y, y ≠ NNaN) l →
  Sorted numLe l → Sorted numLe (insertBy minusSign x l).
Proof.
  intros Hx Hl Hs. induction Hs as [|y l Hs IH Hhd]; simpl.
  - repeat constructor.
  - apply Forall_cons in Hl as [Hy Hl].
    destruct (minusSign x y <=? 0)%Z eqn:E.
    + constructor; [by constructor|]. constructor. by apply minusSign_le.
    + constructor; [by apply IH|].
      destruct Hhd as [|z l' Hyz]; simpl.
      * constructor. by apply minusSign_gt.
      * destruct (minusSign x z <=? 0)%Z; constructor; [|done].
        by apply minusSign_gt.
Qed.

Lemma sortBy_Sorted l :
  Forall (λ y, y ≠ NNaN) l → Sorted numLe (sortBy minusSign l).
Proof.
  induction 1 as [|x l Hx Hl IH]; simpl; [constructor|].
  apply insertBy_Sorted; [done| |done].
  by rewrite sortBy_Permutation.
Qed.

(** Splitting at a separator that the left piece does not contain. *)
Lemma splitOn_absent sep s :
  includesChar sep s = false → splitOn sep s = [s].
Proof.
  induction s as [|c r IH]; simpl; [done|].
  intros [Hc Hr]%orb_false_elim. rewrite Hc, IH; done.
Qed.

Lemma splitOn_app sep a b :
  includesChar sep a = false →
  splitOn sep (a +:+ String sep b) = a :: splitOn sep b.
Proof.
  induction a as [|c r IH]; simpl.
  - intros _. by rewrite Ascii.eqb_refl.
  - intros [Hc Hr]%orb_false_elim. rewrite Hc, IH; done.
Qed.

Lemma onlyDigits_no sep s :
  isDigit sep = false → onlyDigits s = true → includesChar sep s = false.
Proof.
  intros Hsep. induction s as [|c r IH]; simpl; [done|].
  intros [Hc Hr]%andb_prop. rewrite IH, orb_false_r; [|done].
  destruct (Ascii.eqb_spec c sep); [congruence|done].
Qed.

Lemma onlyDigits_app a c b :
  isDigit c = false → onlyDigits (a +:+ String c b) = false.
Proof.
  intros Hc. induction a as [|d r IH]; simpl; [by rewrite Hc|].
  by rewrite IH, andb_false_r.
Qed.

Lemma splitOn_pair a b :
  onlyDigits a = true → includesChar ":" b = false →
  splitOn ":" (a +:+ String ":" b) = [a; b].
Proof.
  intros Ha Hb. rewrite splitOn_app by (by apply onlyDigits_no).
  by rewrite splitOn_absent.
Qed.

Lemma splitOn_nonempty sep s : splitOn sep s ≠ [].
Proof. destruct s as [|c r]; simpl; [done|]. by repeat case_match. Qed.

(** A character other than the separator stays in one of the pieces. *)
Lemma includesChar_splitOn sep x s :
  x ≠ sep → includesChar x s = true →
  ∃ p, p ∈ splitOn sep s ∧ includesChar x p = true.
Proof.
  intros Hne. induction s as [|c r IH]; simpl; [done|].
  destruct (Ascii.eqb_spec c sep) as [->|Hc].
  - destruct (Ascii.eqb_spec sep x) as [->|_]; [done|]. simpl.
    intros (p & Hp & Hx)%IH. exists p. split; [by right|done].
  - destruct (splitOn sep r) as [|p0 ps] eqn:E; [by apply splitOn_nonempty in E|].
    destruct (Ascii.eqb_spec c x) as [->|_]; simpl.
    + intros _. exists (String x p0). split; [by left|].
      simpl. by rewrite Ascii.eqb_refl.
    + intros (p & Hp & Hx)%IH. apply elem_of_cons in Hp as [->|Hp].
      * exists (String c p0). split; [by left|]. simpl. by rewrite Hx, orb_true_r.
      * exists p. split; [by right|done].
Qed.

Lemma includesChar_app x a b : includesChar x (a +:+ String x b) = true.
Proof.
  induction a as [|c r IH]; simpl; [by rewrite Ascii.eqb_refl|].
  by rewrite IH, orb_true_r.
Qed.

(** A string with a colon in it is no comma list. *)
Lemma isUidList_colon a b : isUidList (a +:+ String ":" b) = false.
Proof.
  unfold isUidList. apply not_true_is_false. intros H.
  destruct (includesChar_splitOn "," ":" (a +:+ String ":" b))
    as (p & Hp & Hx); [done|apply includesChar_app|].
  rewrite forallb_forall in H. apply list_elem_of_In, H in Hp.
  apply allDigits_only, (onlyDigits_no ":") in Hp; [congruence|done].
Qed.

Lemma nonEmpty_app a b : nonEmpty a = true → nonEmpty (a +:+ b) = true.
Proof. by destruct a. Qed.

Lemma uid_pair_parts a b :
  allDigits a = true → includesChar ":" b = false →
  allDigits b || String.eqb b "*" = true →
  uidRangeStringToQuery (Some (a +:+ String ":" b)) =
    match sortBy starLast [Number a; Number b] with
    | [p0; p1] =>
        if strictEq p0 p1 then Some (UidEq p0)
        else Some (UidRange p0 (if isNaN p1 then None else Some p1))
    | _ => None
    end.
Proof.
  intros Ha Hb Hb'. unfold uidRangeStringToQuery.
  rewrite nonEmpty_app by (by apply allDigits_nonEmpty). simpl negb. cbv iota.
  assert (allDigits (a +:+ String ":" b) = false) as ->.
  { unfold allDigits. by rewrite onlyDigits_app, andb_false_r. }
  rewrite isUidList_colon. unfold isUidPair.
  rewrite splitOn_pair by (by try apply allDigits_only).
  by rewrite Ha, Hb'.
Qed.

(** C3. [uidRangeStringToQuery] on the three grammars: a digit string
    is the equality constraint on its number; a comma list is the
    member-of constraint over its numbers in ascending order, with
    every duplicate kept; a colon pair of numbers is the range from the
    smaller to the larger bound, or the equality constraint when the
    two bounds are equal; a number, a colon and a star is the range
    with no upper bound; every other string is no constraint.  This
    gives 5 for "5", [3,5,10] for "5,3,10", 5..10 for "5:10", 5.. for
    "5:*", 7 for "7:7" and nothing for "abc". *)
Theorem uidRangeStringToQuery_grammars :
  uidRangeStringToQuery (Some "5") = Some (UidEq (NFin 5))
  ∧ uidRangeStringToQuery (Some "5,3,10") = Some (UidIn [NFin 3; NFin 5; NFin 10])
  ∧ uidRangeStringToQuery (Some "5,3,5") = Some (UidIn [NFin 3; NFin 5; NFin 5])
  ∧ uidRangeStringToQuery (Some "5:10") = Some (UidRange (NFin 5) (Some (NFin 10)))
  ∧ uidRangeStringToQuery (Some "5:*") = Some (UidRange (NFin 5) None)
  ∧ uidRangeStringToQuery (Some "7:7") = Some (UidEq (NFin 7))
  ∧ uidRangeStringToQuery (Some "abc") = None
  ∧ (∀ s, allDigits s = true →
       uidRangeStringToQuery (Some s) = Some (UidEq (Number s)))
  ∧ (∀ s, allDigits s = false → isUidList s = true →
       ∃ l, uidRangeStringToQuery (Some s) = Some (UidIn l)
            ∧ Sorted numLe l
            ∧ l ≡ₚ map Number (splitOn "," s))
  ∧ (∀ a, allDigits a = true →
       uidRangeStringToQuery (Some (a +:+ ":*")) = Some (UidRange (Number a) None))
  ∧ (∀ a b, allDigits a = true → allDigits b = true →
       ∃ lo hi,
         numLe lo hi
         ∧ (lo = Number a ∧ hi = Number b ∨ lo = Number b ∧ hi = Number a)
         ∧ uidRangeStringToQuery (Some (a +:+ ":" +:+ b)) =
             Some (if strictEq lo hi then UidEq lo else UidRange lo (Some hi)))
  ∧ (∀ s, allDigits s = false → isUidList s = false → isUidPair s = false →
       uidRangeStringToQuery (Some s) = None).
Proof.
  repeat apply conj; try reflexivity.
  - intros s Hs. unfold uidRangeStringToQuery.
    by rewrite (allDigits_nonEmpty s Hs), Hs.
  - intros s Hs Hl. eexists. unfold uidRangeStringToQuery. rewrite Hs, Hl.
    assert (nonEmpty s = true) as ->.
    { destruct s; [|done]. by vm_compute in Hl. }
    split; [done|]. split; [|apply sortBy_Permutation].
    apply sortBy_Sorted, Forall_forall. intros n Hn.
    apply list_elem_of_fmap in Hn as (p & -> & Hp).
    unfold isUidList in Hl. rewrite forallb_forall in Hl.
    by apply Number_digits, allDigits_only, Hl, list_elem_of_In.
  - intros a Ha. change (a +:+ ":*") with (a +:+ String ":" "*").
    rewrite uid_pair_parts by (done || by rewrite orb_true_r).
    change (Number "*") with NNaN.
    pose proof (Number_digits a (allDigits_only a Ha)) as Hna.
    by destruct (Number a).
  - intros a b Ha Hb. change (a +:+ ":" +:+ b) with (a +:+ String ":" b).
    rewrite uid_pair_parts;
      [|done|by apply onlyDigits_no, allDigits_only|by rewrite Hb].
    pose proof (Number_digits a (allDigits_only a Ha)) as Hna.
    pose proof (Number_digits b (allDigits_only b Hb)) as Hnb.
    simpl. unfold starLast at 1. simpl.
    destruct (minusSign (Number a) (Number b) <=? 0)%Z eqn:E.
    + exists (Number a), (Number b).
      split; [by apply minusSign_le|]. split; [by left|].
      destruct (strictEq _ _); [done|]. by destruct (Number b).
    + exists (Number b), (Number a).
      split; [by apply minusSign_gt|]. split; [by right|].
      destruct (strictEq _ _); [done|]. by destruct (Number a).
  - intros s Hs Hl Hp. unfold uidRangeStringToQuery.
    rewrite Hs, Hl, Hp. by destruct (negb _).
Qed.

Lemma uidRangeStringToQuery_grammars_witness :
  ∃ lo hi,
    numLe lo hi
    ∧ uidRangeStringToQuery (Some "10:5") =
        Some (if strictEq lo hi then UidEq lo else UidRange lo (Some hi)).
Proof.
  destruct uidRangeStringToQuery_grammars
    as (_ & _ & _ & _ & _ & _ & _ & _ & _ & _ & H & _).
  destruct (H "10" "5" eq_refl eq_refl) as (lo & hi & Hle & _ & Hq).
  exists lo, hi. split; [exact Hle|exact Hq].
Defined.

(** ** Letter case *)

Lemma lowerChar_idem c : lowerChar (lowerChar c) = lowerChar c.
Proof. by destruct c as [[] [] [] [] [] [] [] []]. Qed.

Lemma isSpace_lowerChar c : isSpace (lowerChar c) = isSpace c.
Proof. by destruct c as [[] [] [] [] [] [] [] []]. Qed.

Lemma toLowerCase_idem s : toLowerCase (toLowerCase s) = toLowerCase s.
Proof. induction s as [|c r IH]; simpl; [done|]. by rewrite lowerChar_idem, IH. Qed.

Lemma toLowerCase_app a b :
  toLowerCase (a +:+ b) = toLowerCase a +:+ toLowerCase b.
Proof. induction a as [|c r IH]; simpl; [done|]. by rewrite IH. Qed.

Lemma toLowerCase_trimStart s :
  toLowerCase (trimStart s) = trimStart (toLowerCase s).
Proof.
  induction s as [|c r IH]; simpl; [done|].
  rewrite isSpace_lowerChar. by destruct (isSpace c).
Qed.

Lemma toLowerCase_trimEnd s :
  toLowerCase (trimEnd s) = trimEnd (toLowerCase s).
Proof.
  induction s as [|c r IH]; simpl; [done|].
  rewrite <- IH, isSpace_lowerChar.
  destruct (trimEnd r); simpl; [|done]. by destruct (isSpace c).
Qed.

Lemma toLowerCase_trim s : toLowerCase (trim s) = trim (toLowerCase s).
Proof. unfold trim. by rewrite toLowerCase_trimEnd, toLowerCase_trimStart. Qed.

(** A normalized term is in lower case. *)
Lemma term_lower s : toLowerCase (trim (toLowerCase s)) = trim (toLowerCase s).
Proof. by rewrite toLowerCase_trim, toLowerCase_idem. Qed.

Lemma toLowerCase_join sep l :
  toLowerCase (join sep l) = join (toLowerCase sep) (map toLowerCase l).
Proof.
  induction l as [|x [|y l] IH]; simpl in *; [done..|].
  by rewrite !toLowerCase_app, IH.
Qed.

(** The names and the addresses of the index are in lower case. *)
Lemma nameOf_lower e n : nameOf e = Some n → toLowerCase n = n.
Proof.
  unfold nameOf. repeat case_match; intros [= <-]. apply term_lower.
Qed.

Lemma addressOf_lower e a : addressOf e = Some a → toLowerCase a = a.
Proof.
  unfold addressOf. case_match; intros [= <-]. apply term_lower.
Qed.

Lemma join_lower l :
  Forall (λ n, toLowerCase n = n) l → toLowerCase (join " " l) = join " " l.
Proof.
  intros Hall. rewrite toLowerCase_join. f_equal.
  induction Hall as [|x l' Hx Hl IH]; simpl; [done|]. by rewrite Hx, IH.
Qed.

Lemma nameField_lower entries v :
  nameField (namesOf entries) = Some (SStr v) → toLowerCase v = v.
Proof.
  unfold nameField.
  assert (Forall (λ n, toLowerCase n = n) (namesOf entries)) as Hall.
  { unfold namesOf. destruct entries; try by constructor.
    apply Forall_forall. intros x (e & _ & He)%list_elem_of_omap.
    by eapply nameOf_lower. }
  destruct (namesOf entries) as [|n ns]; [done|].
  intros [= <-]. by apply (join_lower (n :: ns)).
Qed.

Lemma addressField_lower entries l :
  addressField (addressesOf entries) = Some (SList l) →
  Forall (λ a, toLowerCase a = a) l.
Proof.
  unfold addressField. destruct (addressesOf entries) as [|a l'] eqn:E; [done|].
  intros [= <-]. rewrite <- E. unfold addressesOf.
  destruct entries; try by constructor.
  apply Forall_forall. intros x (e & _ & He)%list_elem_of_omap.
  by eapply addressOf_lower.
Qed.

(** ** The filter compiler *)

Section Frames.
Context {B : Type} (proj : Filter.t → B).
Variable escapeRegexStr : string → string.

Lemma stepUid_keep q f :
  ignores proj Filter.set_uid → proj (stepUid q f) = proj f.
Proof. intros H. unfold stepUid. by repeat case_match. Qed.

Lemma stepThread_keep p f :
  ignores proj Filter.set_thread → proj (stepThread p f) = proj f.
Proof. intros H. unfold stepThread. by case_match. Qed.

Lemma stepFlagged_keep p f :
  ignores proj Filter.set_flagged → proj (stepFlagged p f) = proj f.
Proof. intros H. unfold stepFlagged. by case_match. Qed.

Lemma stepSeen_keep p f :
  ignores proj Filter.set_searchable → ignores proj Filter.set_unseen →
  proj (stepSeen p f) = proj f.
Proof. intros H1 H2. unfold stepSeen. case_match; [|done]. by rewrite H1, H2. Qed.

Lemma stepUnseen_keep p f :
  ignores proj Filter.set_searchable → ignores proj Filter.set_unseen →
  proj (stepUnseen p f) = proj f.
Proof. intros H1 H2. unfold stepUnseen. case_match; [|done]. by rewrite H1, H2. Qed.

Lemma stepSearchable_keep p f :
  ignores proj Filter.set_searchable → proj (stepSearchable p f) = proj f.
Proof. intros H. unfold stepSearchable. by case_match. Qed.

Lemma stepDates_keep p f :
  ignores proj Filter.set_idate → proj (stepDates p f) = proj f.
Proof. intros H. unfold stepDates. repeat case_match; by rewrite ?H. Qed.

Lemma pushAnd_keep x f :
  ignores proj Filter.set_and → proj (pushAnd x f) = proj f.
Proof. intros H. apply H. Qed.

Lemma stepFrom_keep p f :
  ignores proj Filter.set_and → proj (stepFrom escapeRegexStr p f) = proj f.
Proof. intros H. unfold stepFrom. case_match; [|done]. by apply pushAnd_keep. Qed.

Lemma stepTo_keep p f :
  ignores proj Filter.set_and → proj (stepTo escapeRegexStr p f) = proj f.
Proof. intros H. unfold stepTo. case_match; [|done]. by apply pushAnd_keep. Qed.

Lemma stepSubject_keep p f :
  ignores proj Filter.set_and → proj (stepSubject escapeRegexStr p f) = proj f.
Proof.
  intros H. unfold stepSubject. case_match; [|done].
  transitivity (proj (ensureAnd f)); [|apply H].
  generalize (ensureAnd f).
  induction (splitWords _) as [|w ws IH]; intros g; simpl; [done|].
  by rewrite IH, pushAnd_keep.
Qed.

Lemma stepAttachments_keep p f :
  ignores proj Filter.set_ha → proj (stepAttachments p f) = proj f.
Proof. intros H. unfold stepAttachments. by case_match. Qed.

Lemma stepSizes_keep p f :
  ignores proj Filter.set_size → proj (stepSizes p f) = proj f.
Proof. intros H. unfold stepSizes. repeat case_match; by rewrite ?H. Qed.

Lemma stepOr_keep oq f :
  ignores proj Filter.set_or → proj (stepOr oq f) = proj f.
Proof. intros H. unfold stepOr. by case_match. Qed.

Lemma stepQuery_keep p o f oq :
  ignores proj Filter.set_searchable → ignores proj Filter.set_text →
  proj (stepQuery p o f oq).1 = proj f.
Proof. intros H1 H2. unfold stepQuery. repeat case_match; simpl; by rewrite ?H2, ?H1. Qed.

Lemma resolveMailbox_keep db user p f f' :
  ignores proj Filter.set_mailbox →
  resolveMailbox db user p f = Ok f' → proj f' = proj f.
Proof.
  intros H. unfold resolveMailbox.
  repeat case_match; intros [= <-]; by rewrite ?H.
Qed.
End Frames.

Ltac keep :=
  repeat first
    [ rewrite stepOr_keep by done
    | rewrite stepSizes_keep by done
    | rewrite stepAttachments_keep by done
    | rewrite stepSubject_keep by done
    | rewrite stepTo_keep by done
    | rewrite stepFrom_keep by done
    | rewrite stepDates_keep by done
    | rewrite stepSearchable_keep by done
    | rewrite stepUnseen_keep by done
    | rewrite stepSeen_keep by done
    | rewrite stepFlagged_keep by done
    | rewrite stepThread_keep by done
    | rewrite stepUid_keep by done ].

Section CompilerProperties.
Variable escapeRegexStr : string → string.
Local Abbreviation finishFilter := (finishFilter escapeRegexStr).
Local Abbreviation prepareSearchFilter := (prepareSearchFilter escapeRegexStr).

Lemma finishFilter_mailbox p o q f oq :
  Filter.mailbox (finishFilter p o q f oq) = Filter.mailbox f.
Proof. unfold finishFilter. by keep. Qed.

Lemma finishFilter_uid p o q f oq :
  Filter.uid (finishFilter p o q f oq) = Filter.uid (stepUid q f).
Proof. unfold finishFilter. by keep. Qed.

Lemma finishFilter_unseen p o q f oq :
  Filter.unseen (finishFilter p o q f oq) =
    if Payload.unseen p then Some true
    else if Payload.seen p then Some false
    else Filter.unseen f.
Proof.
  unfold finishFilter. keep. unfold stepUnseen, stepSeen.
  repeat case_match; simpl; by keep.
Qed.

Lemma finishFilter_searchable p o q f oq :
  Payload.seen p || Payload.unseen p || Payload.searchable p = true →
  Filter.searchable (finishFilter p o q f oq) = Some true.
Proof.
  unfold finishFilter. keep. unfold stepSearchable, stepUnseen, stepSeen.
  by repeat case_match.
Qed.

(** The shape of a run of the compiler that returns. *)
Lemma prepareSearchFilter_Ok db user p f q :
  prepareSearchFilter db user p = Ok (f, q) →
  ∃ f0 oq f1,
    stepQuery p (default OrTerms.empty (Payload.or p)) (Filter.init user) [] = (f0, oq)
    ∧ resolveMailbox db user p f0 = Ok f1
    ∧ f = finishFilter p (default OrTerms.empty (Payload.or p))
            (uidRangeStringToQuery (Payload.id p)) f1 oq
    ∧ q = Payload.query p.
Proof.
  unfold prepareSearchFilter.
  destruct (users_findOne db user) as [[u|]|]; try done.
  destruct (stepQuery _ _ _ _) as [f0 oq].
  destruct (resolveMailbox db user p f0) as [f1|] eqn:E; [|done].
  intros [= <- <-]. by exists f0, oq, f1.
Qed.

(** The compiler returns when the owner resolves and the scope does. *)
Lemma prepareSearchFilter_returns db user p u f1 :
  users_findOne db user = Ok (Some u) →
  resolveMailbox db user p
    (stepQuery p (default OrTerms.empty (Payload.or p)) (Filter.init user) []).1 = Ok f1 →
  prepareSearchFilter db user p =
    Ok (finishFilter p (default OrTerms.empty (Payload.or p))
          (uidRangeStringToQuery (Payload.id p)) f1
          (stepQuery p (default OrTerms.empty (Payload.or p)) (Filter.init user) []).2,
        Payload.query p).
Proof.
  intros Hu Hm. unfold prepareSearchFilter. rewrite Hu.
  destruct (stepQuery _ _ _ _) as [f0 oq]. simpl in *. by rewrite Hm.
Qed.

(** C4. When [seen] and [unseen] are both requested, every compiled
    filter has [unseen: true] and [searchable: true]: the
    [unseen: false] that [seen] sets is overwritten. *)
Theorem unseen_overrides_seen db user p f q :
  Payload.seen p = true → Payload.unseen p = true →
  prepareSearchFilter db user p = Ok (f, q) →
  Filter.unseen f = Some true ∧ Filter.searchable f = Some true
  ∧ Filter.unseen f ≠ Some false.
Proof.
  intros Hs Hu (f0 & oq & f1 & _ & _ & -> & _)%prepareSearchFilter_Ok.
  rewrite finishFilter_unseen, finishFilter_searchable, Hu; [done|].
  by rewrite Hs.
Qed.

(** C5. With neither [mailbox] nor [searchable] in the payload and a
    resolvable owner, the compiler returns a filter with no [mailbox]
    and no [uid], whatever [id] is. *)
Theorem uid_needs_mailbox db user p u :
  Payload.mailbox p = None → Payload.searchable p = false →
  users_findOne db user = Ok (Some u) →
  ∃ f, prepareSearchFilter db user p = Ok (f, Payload.query p)
       ∧ Filter.mailbox f = None ∧ Filter.uid f = None.
Proof.
  intros Hm Hs Hu. eexists. split.
  - apply (prepareSearchFilter_returns db user p u); [done|].
    unfold resolveMailbox. by rewrite Hm, Hs.
  - rewrite finishFilter_mailbox, finishFilter_uid.
    unfold stepUid. rewrite !stepQuery_keep by done. simpl.
    by rewrite stepQuery_keep.
Qed.

(** What the scope resolution does, by the outcome of the probe. *)
Lemma resolveMailbox_searchable db user p f :
  Payload.mailbox p = None → Payload.searchable p = true →
  resolveMailbox db user p f =
    if useInQuery (countProbe db user) then
      match mailboxes_find db (nonJunkAndTrash user) with
      | Ok ids => Ok (Filter.set_mailbox (MbIn ids) f)
      | Throw e => Throw (internalDatabaseError e)
      end
    else
      match mailboxes_find db (junkAndTrash user) with
      | Ok ids => Ok (Filter.set_mailbox (MbNin ids) f)
      | Throw e => Throw (internalDatabaseError e)
      end.
Proof. intros Hm Hs. unfold resolveMailbox. by rewrite Hm, Hs. Qed.

Lemma prepareSearchFilter_scope db user p u :
  Payload.mailbox p = None → Payload.searchable p = true →
  users_findOne db user = Ok (Some u) →
  match listing db user with
  | Ok ids =>
      ∃ f, prepareSearchFilter db user p = Ok (f, Payload.query p)
           ∧ Filter.mailbox f =
               Some (if useInQuery (countProbe db user) then MbIn ids else MbNin ids)
  | Throw e => prepareSearchFilter db user p = Throw (internalDatabaseError e)
  end.
Proof.
  intros Hm Hs Hu. unfold listing.
  destruct (useInQuery (countProbe db user)) eqn:Hc;
    destruct (mailboxes_find db _) as [ids|e] eqn:Hf.
  1,3: eexists; split;
    [ apply (prepareSearchFilter_returns db user p u); [done|];
      rewrite resolveMailbox_searchable, Hc, Hf by done; reflexivity
    | by rewrite finishFilter_mailbox ].
  all: unfold prepareSearchFilter; rewrite Hu;
    destruct (stepQuery _ _ _ _) as [f0 oq];
    by rewrite resolveMailbox_searchable, Hc, Hf.
Qed.

(** Every way the compiler fails: the identity lookup throws, the
    owner does not exist, or the listing of the scope resolution
    throws. *)
Lemma prepareSearchFilter_Throw db user p err :
  prepareSearchFilter db user p = Throw err →
  (∃ e, users_findOne db user = Throw e ∧ err = internalDatabaseError e)
  ∨ (users_findOne db user = Ok None ∧ err = userNotFound)
  ∨ (∃ u e, users_findOne db user = Ok (Some u)
            ∧ Payload.mailbox p = None ∧ Payload.searchable p = true
            ∧ listing db user = Throw e ∧ err = internalDatabaseError e).
Proof.
  unfold prepareSearchFilter.
  destruct (users_findOne db user) as [[u|]|e] eqn:Hu.
  - destruct (stepQuery _ _ _ _) as [f0 oq].
    destruct (resolveMailbox db user p f0) as [f1|e] eqn:Hr; [done|].
    intros [= <-]. right. right. exists u. unfold listing.
    unfold resolveMailbox in Hr.
    destruct (Payload.mailbox p); [done|].
    destruct (Payload.searchable p); [|done].
    destruct (useInQuery _);
      destruct (mailboxes_find db _) as [ids|e'] eqn:Hf; simplify_eq;
      by exists e'.
  - intros [= <-]. right. by left.
  - intros [= <-]. left. by exists e.
Qed.

(** C1, amended. In a payload that triggers the scope resolution,
    with a resolvable owner: a failure of the count probe does not
    fail the compiler, which then takes the exclusion strategy when
    the listing returns; a failure of the listing fetch, under either
    strategy, aborts with [InternalDatabaseError] (500).  The compiler
    fails in no other way than by the identity lookup and by the
    listing fetch. *)
Theorem scope_failures :
  (∀ db user p u e ids,
     Payload.mailbox p = None → Payload.searchable p = true →
     users_findOne db user = Ok (Some u) →
     mailboxes_countDocuments db (nonJunkAndTrash user) = Throw e →
     mailboxes_find db (junkAndTrash user) = Ok ids →
     ∃ f, prepareSearchFilter db user p = Ok (f, Payload.query p)
          ∧ Filter.mailbox f = Some (MbNin ids))
  ∧ (∀ db user p u e,
       Payload.mailbox p = None → Payload.searchable p = true →
       users_findOne db user = Ok (Some u) →
       listing db user = Throw e →
       prepareSearchFilter db user p = Throw (internalDatabaseError e))
  ∧ (∀ db user p err,
       prepareSearchFilter db user p = Throw err →
       (∃ e, users_findOne db user = Throw e ∧ err = internalDatabaseError e)
       ∨ (users_findOne db user = Ok None ∧ err = userNotFound)
       ∨ (∃ u e, users_findOne db user = Ok (Some u)
                 ∧ Payload.mailbox p = None ∧ Payload.searchable p = true
                 ∧ listing db user = Throw e ∧ err = internalDatabaseError e)).
Proof.
  split; [|split].
  - intros db user p u e ids Hm Hs Hu Hc Hf.
    pose proof (prepareSearchFilter_scope db user p u Hm Hs Hu) as H.
    unfold listing, countProbe in H.
    rewrite Hc in H. simpl in H. by rewrite Hf in H.
  - intros db user p u e Hm Hs Hu He.
    pose proof (prepareSearchFilter_scope db user p u Hm Hs Hu) as H.
    by rewrite He in H.
  - apply prepareSearchFilter_Throw.
Qed.

(** C2, amended. In a payload that triggers the scope resolution,
    with a resolvable owner and a listing that returns: a known count
    from 1 to 199 gives the inclusion set of the mailboxes that are
    neither Junk nor Trash; a count of 0, a count of 200 or more and
    a failed count probe give the exclusion set of the Junk and Trash
    mailboxes.  So 150 gives inclusion, 250 and unknown give
    exclusion. *)
Theorem scope_strategy db user p u :
  Payload.mailbox p = None → Payload.searchable p = true →
  users_findOne db user = Ok (Some u) →
  (∀ n ids,
     mailboxes_countDocuments db (nonJunkAndTrash user) = Ok n →
     (0 < n < 200)%N →
     mailboxes_find db (nonJunkAndTrash user) = Ok ids →
     ∃ f, prepareSearchFilter db user p = Ok (f, Payload.query p)
          ∧ Filter.mailbox f = Some (MbIn ids))
  ∧ (∀ n ids,
       mailboxes_countDocuments db (nonJunkAndTrash user) = Ok n →
       (n = 0 ∨ 200 ≤ n)%N →
       mailboxes_find db (junkAndTrash user) = Ok ids →
       ∃ f, prepareSearchFilter db user p = Ok (f, Payload.query p)
            ∧ Filter.mailbox f = Some (MbNin ids))
  ∧ (∀ e ids,
       mailboxes_countDocuments db (nonJunkAndTrash user) = Throw e →
       mailboxes_find db (junkAndTrash user) = Ok ids →
       ∃ f, prepareSearchFilter db user p = Ok (f, Payload.query p)
            ∧ Filter.mailbox f = Some (MbNin ids))
  ∧ useInQuery (Some 150%N) = true
  ∧ useInQuery (Some 250%N) = false
  ∧ useInQuery None = false.
Proof.
  intros Hm Hs Hu.
  pose proof (prepareSearchFilter_scope db user p u Hm Hs Hu) as H.
  unfold listing, countProbe in H.
  repeat apply conj; try reflexivity.
  - intros n ids Hc Hn Hf. rewrite Hc in H.
    assert (useInQuery (Some n) = true) as Hq.
    { unfold useInQuery. apply andb_true_intro. split.
      - apply negb_true_iff, N.eqb_neq. lia.
      - apply N.ltb_lt. lia. }
    rewrite Hq in H. by rewrite Hf in H.
  - intros n ids Hc Hn Hf. rewrite Hc in H.
    assert (useInQuery (Some n) = false) as Hq.
    { unfold useInQuery. destruct Hn as [->|Hn]; [done|].
      apply andb_false_intro2, N.ltb_ge. lia. }
    rewrite Hq in H. by rewrite Hf in H.
  - intros e ids Hc Hf. rewrite Hc in H. simpl in H. by rewrite Hf in H.
Qed.
End CompilerProperties.

(** The claim C1 fails where the listing fetch fails: the owner
    resolves, the count probe returns 3, the listing throws, and the
    compiler throws. *)
Lemma listing_failure_aborts :
  let db := dbWith (Ok 3%N) (Throw storageFailure) (Ok []) in
  Payload.mailbox searchablePayload = None
  ∧ Payload.searchable searchablePayload = true
  ∧ users_findOne db 1%N = Ok (Some someUser)
  ∧ mailboxes_find db (nonJunkAndTrash 1%N) = Throw storageFailure
  ∧ prepareSearchFilter (λ s, s) db 1%N searchablePayload
      = Throw (internalDatabaseError storageFailure)
  ∧ ¬ ∃ r, prepareSearchFilter (λ s, s) db 1%N searchablePayload = Ok r.
Proof. repeat split. by intros [r Hr]. Qed.

Lemma scope_failures_witness :
  ∃ f, prepareSearchFilter (λ s, s)
         (dbWith (Throw storageFailure) (Ok [4%N]) (Ok [9%N])) 1%N searchablePayload
       = Ok (f, None)
       ∧ Filter.mailbox f = Some (MbNin [9%N]).
Proof.
  apply (proj1 (scope_failures (λ s, s))
           (dbWith (Throw storageFailure) (Ok [4%N]) (Ok [9%N]))
           1%N searchablePayload someUser storageFailure [9%N]
           eq_refl eq_refl eq_refl eq_refl eq_refl).
Defined.

(** The claim C2 fails at the count 0: it is known and below 200, and
    the scope is the exclusion set. *)
Lemma zero_count_excludes :
  let db := dbWith (Ok 0%N) (Ok []) (Ok [9%N]) in
  mailboxes_countDocuments db (nonJunkAndTrash 1%N) = Ok 0%N
  ∧ (0 < 200)%N
  ∧ ∃ f, prepareSearchFilter (λ s, s) db 1%N searchablePayload = Ok (f, None)
         ∧ Filter.mailbox f = Some (MbNin [9%N])
         ∧ Filter.mailbox f ≠ Some (MbIn []).
Proof. repeat split. eexists. repeat split. done. Qed.

Lemma scope_strategy_witness :
  ∃ f, prepareSearchFilter (λ s, s)
         (dbWith (Ok 150%N) (Ok [4%N; 5%N]) (Ok [9%N])) 1%N searchablePayload
       = Ok (f, None)
       ∧ Filter.mailbox f = Some (MbIn [4%N; 5%N]).
Proof.
  apply (proj1 (scope_strategy (λ s, s)
                  (dbWith (Ok 150%N) (Ok [4%N; 5%N]) (Ok [9%N]))
                  1%N searchablePayload someUser eq_refl eq_refl eq_refl)
               150%N [4%N; 5%N] eq_refl).
  - lia.
  - reflexivity.
Defined.

Section AndTerms.
Variable escapeRegexStr : string → string.
Local Abbreviation finishFilter := (finishFilter escapeRegexStr).
Local Abbreviation prepareSearchFilter := (prepareSearchFilter escapeRegexStr).
Local Abbreviation subjectWordPred := (subjectWordPred escapeRegexStr).
Local Abbreviation fromTerms := (fromTerms escapeRegexStr).
Local Abbreviation toTerms := (toTerms escapeRegexStr).
Local Abbreviation subjectTerms := (subjectTerms escapeRegexStr).

Lemma foldl_pushAnd (mk : string → Pred) ws f l0 :
  Filter.and_ f = Some l0 →
  Filter.and_ (foldl (λ f w, pushAnd (mk w) f) f ws) = Some (l0 ++ map mk ws).
Proof.
  revert f l0. induction ws as [|w ws IH]; intros f l0 Hf; simpl.
  - by rewrite app_nil_r.
  - rewrite (IH _ (l0 ++ [mk w])); [by rewrite <- app_assoc|].
    unfold pushAnd. simpl. by rewrite Hf.
Qed.

Lemma stepFrom_and p f :
  Filter.and_ f = None →
  Filter.and_ (stepFrom escapeRegexStr p f) =
    if strTruthy (Payload.from p) then Some (fromTerms p) else None.
Proof.
  intros Hf. unfold stepFrom, fromTerms.
  destruct (strTruthy _); [|done]. unfold pushAnd. simpl. by rewrite Hf.
Qed.

Lemma stepTo_and p f :
  Filter.and_ (stepTo escapeRegexStr p f) =
    if strTruthy (Payload.to p)
    then Some (default [] (Filter.and_ f) ++ toTerms p) else Filter.and_ f.
Proof. unfold stepTo, toTerms. by destruct (strTruthy _). Qed.

Lemma stepSubject_and p f :
  Filter.and_ (stepSubject escapeRegexStr p f) =
    if strTruthy (Payload.subject p)
    then Some (default [] (Filter.and_ f) ++ subjectTerms p) else Filter.and_ f.
Proof.
  unfold stepSubject, subjectTerms. destruct (strTruthy _); [|done].
  by apply foldl_pushAnd.
Qed.

(** [filter.$and] of the compiled filter: absent when no mandatory
    text filter is given, else the from, to and subject predicates. *)
Lemma finishFilter_and p o q f oq :
  Filter.and_ f = None →
  Filter.and_ (finishFilter p o q f oq) =
    if strTruthy (Payload.from p) || strTruthy (Payload.to p)
       || strTruthy (Payload.subject p)
    then Some (fromTerms p ++ toTerms p ++ subjectTerms p) else None.
Proof.
  intros Hf. unfold finishFilter.
  rewrite stepOr_keep, stepSizes_keep, stepAttachments_keep by done.
  rewrite stepSubject_and, stepTo_and, stepFrom_and by (by keep).
  unfold fromTerms, toTerms, subjectTerms.
  destruct (strTruthy (Payload.from p)), (strTruthy (Payload.to p)),
    (strTruthy (Payload.subject p)); simpl; by rewrite ?app_nil_r.
Qed.

Lemma prepareSearchFilter_and db user p f q :
  prepareSearchFilter db user p = Ok (f, q) →
  Filter.and_ f =
    if strTruthy (Payload.from p) || strTruthy (Payload.to p)
       || strTruthy (Payload.subject p)
    then Some (fromTerms p ++ toTerms p ++ subjectTerms p) else None.
Proof.
  intros (f0 & oq & f1 & Hq & Hm & -> & _)%prepareSearchFilter_Ok.
  apply finishFilter_and.
  rewrite (resolveMailbox_keep Filter.and_ db user p f0 f1) by done.
  change f0 with (f0, oq).1. rewrite <- Hq. by rewrite stepQuery_keep.
Qed.

(** Without a mailbox scope to resolve, a resolvable owner is all
    the compiler needs. *)
Lemma prepareSearchFilter_unscoped db user p u :
  Payload.mailbox p = None → Payload.searchable p = false →
  users_findOne db user = Ok (Some u) →
  ∃ f, prepareSearchFilter db user p = Ok (f, Payload.query p).
Proof.
  intros Hm Hs Hu. eexists.
  apply (prepareSearchFilter_returns escapeRegexStr db user p u); [done|].
  unfold resolveMailbox. by rewrite Hm, Hs.
Qed.

(** [filter.$or] of the compiled filter: [orQuery], when it is not
    empty. *)
Lemma finishFilter_or p o q f oq :
  Filter.or_ (finishFilter p o q f oq) =
    match stepOrSubject escapeRegexStr o
            (stepOrTo escapeRegexStr o (stepOrFrom escapeRegexStr o oq)) with
    | [] => Filter.or_ f
    | l => Some l
    end.
Proof.
  unfold finishFilter. cbv zeta. unfold stepOr.
  destruct (stepOrSubject _ _ _); [by keep|done].
Qed.

Lemma stepOrSubject_last o oq t :
  OrTerms.subject o = Some t → t ≠ "" →
  stepOrSubject escapeRegexStr o oq =
    oq ++ [match splitWords (trim (toLowerCase t)) with
           | [word] => subjectWordPred word
           | words => PAnd (map subjectWordPred words)
           end].
Proof.
  intros Ht Hne. unfold stepOrSubject. rewrite Ht. simpl.
  destruct t; [done|]. simpl nonEmpty. cbv iota.
  by destruct (splitWords _) as [|? [|??]].
Qed.

Lemma prepareSearchFilter_or db user p f q o t :
  prepareSearchFilter db user p = Ok (f, q) →
  Payload.or p = Some o → OrTerms.subject o = Some t → t ≠ "" →
  ∃ before,
    Filter.or_ f =
      Some (before ++
            [match splitWords (trim (toLowerCase t)) with
             | [word] => subjectWordPred word
             | words => PAnd (map subjectWordPred words)
             end]).
Proof.
  intros (f0 & oq & f1 & _ & _ & -> & _)%prepareSearchFilter_Ok Ho Ht Hne.
  rewrite finishFilter_or, Ho. change (default OrTerms.empty (Some o)) with o.
  rewrite (stepOrSubject_last o _ t Ht Hne).
  match goal with |- context [?l ++ [?x]] =>
    exists l; destruct (l ++ [x]) eqn:E end; [|done].
  by apply app_nil in E as [_ ?].
Qed.

Lemma nonEmpty_toLowerCase s : nonEmpty (toLowerCase s) = nonEmpty s.
Proof. by destruct s. Qed.

Lemma strTruthy_Some t : t ≠ "" → strTruthy (Some t) = true.
Proof. by destruct t. Qed.

End AndTerms.

Lemma unseen_overrides_seen_witness :
  ∃ f q,
    prepareSearchFilter (λ s, s) (dbWith (Ok 3%N) (Ok [4%N]) (Ok [9%N])) 1%N
      seenUnseenPayload = Ok (f, q)
    ∧ Filter.unseen f = Some true ∧ Filter.searchable f = Some true
    ∧ Filter.unseen f ≠ Some false.
Proof.
  eexists _, _. split; [reflexivity|].
  apply (unseen_overrides_seen (λ s, s) (dbWith (Ok 3%N) (Ok [4%N]) (Ok [9%N]))
           1%N seenUnseenPayload _ _ eq_refl eq_refl eq_refl).
Defined.

Lemma uid_needs_mailbox_witness :
  ∃ f, prepareSearchFilter (λ s, s) (dbWith (Ok 3%N) (Ok [4%N]) (Ok [9%N])) 1%N
         idOnlyPayload = Ok (f, None)
       ∧ Filter.mailbox f = None ∧ Filter.uid f = None.
Proof.
  apply (uid_needs_mailbox (λ s, s) (dbWith (Ok 3%N) (Ok [4%N]) (Ok [9%N]))
           1%N idOnlyPayload someUser eq_refl eq_refl eq_refl).
Defined.


(** ** The envelope search extractor *)

Lemma includesChar_toLowerCase c s :
  lowerChar c = c → includesChar c s = true → includesChar c (toLowerCase s) = true.
Proof.
  intros Hc. induction s as [|d r IH]; simpl; [done|].
  intros [Hd|Hr]%orb_prop.
  - apply Ascii.eqb_eq in Hd as ->. by rewrite Hc, Ascii.eqb_refl.
  - by rewrite IH, orb_true_r.
Qed.

Lemma includesChar_trimStart c s :
  isSpace c = false → includesChar c (trimStart s) = includesChar c s.
Proof.
  intros Hc. induction s as [|d r IH]; simpl; [done|].
  destruct (isSpace d) eqn:Hd; [|done].
  rewrite IH. destruct (Ascii.eqb_spec d c) as [->|]; [congruence|done].
Qed.

Lemma includesChar_trimEnd c s :
  isSpace c = false → includesChar c (trimEnd s) = includesChar c s.
Proof.
  intros Hc. induction s as [|d r IH]; simpl; [done|].
  destruct (trimEnd r) as [|e r'] eqn:E.
  - rewrite <- IH. destruct (isSpace d) eqn:Hd; simpl; [|done].
    destruct (Ascii.eqb_spec d c) as [->|]; [congruence|done].
  - by rewrite <- IH.
Qed.

(** An address always has its [@]. *)
Lemma address_includes_at a b :
  includesChar "@" (trim (toLowerCase (a +:+ "@" +:+ b))) = true.
Proof.
  unfold trim. rewrite includesChar_trimEnd, includesChar_trimStart by done.
  apply includesChar_toLowerCase; [done|]. apply includesChar_app.
Qed.

Lemma collectEntry_spec addresses names e :
  collectEntry (addresses, names) e =
    (addresses ++ option_list (addressOf e), names ++ option_list (nameOf e)).
Proof.
  unfold collectEntry, addressOf, nameOf. rewrite address_includes_at.
  repeat case_match; simpl; by rewrite ?app_nil_r.
Qed.

Lemma omap_option_list {A B} (g : A → option B) x l :
  omap g (x :: l) = option_list (g x) ++ omap g l.
Proof. simpl. by destruct (g x). Qed.

Lemma foldl_collectEntry items addresses names :
  foldl collectEntry (addresses, names) items =
    (addresses ++ omap addressOf items, names ++ omap nameOf items).
Proof.
  revert addresses names. induction items as [|e items IH]; intros; cbn [foldl].
  - by rewrite !app_nil_r.
  - rewrite collectEntry_spec, IH, !omap_option_list. by rewrite <- !app_assoc.
Qed.

(** The loop over an address list sets the two keys to the collected
    addresses and names, and no other key. *)
Lemma extractList_spec entries addrKey nameKey search :
  extractList entries addrKey nameKey search =
    let search :=
      match addressField (addressesOf entries) with
      | Some v => <[addrKey := v]> search
      | None => search
      end in
    match nameField (namesOf entries) with
    | Some v => <[nameKey := v]> search
    | None => search
    end.
Proof.
  unfold extractList, addressesOf, namesOf.
  destruct entries as [| | | | |items]; try done.
  destruct items as [|e items]; [done|].
  rewrite foldl_collectEntry, !app_nil_l.
  generalize (omap addressOf (e :: items)), (omap nameOf (e :: items)).
  by intros [|??] [|??].
Qed.

Lemma extractList_lookup entries addrKey nameKey search k :
  addrKey ≠ nameKey →
  extractList entries addrKey nameKey search !! k =
    if decide (k = nameKey) then
      match nameField (namesOf entries) with Some v => Some v | None => search !! k end
    else if decide (k = addrKey) then
      match addressField (addressesOf entries) with Some v => Some v | None => search !! k end
    else search !! k.
Proof.
  intros Hne. rewrite extractList_spec. cbv zeta.
  destruct (nameField _), (addressField _);
    rewrite ?lookup_insert; repeat case_decide; congruence.
Qed.

Lemma extractList_dom entries addrKey nameKey (search : SearchIndex) :
  dom (extractList entries addrKey nameKey search) ⊆ {[addrKey; nameKey]} ∪ dom search.
Proof.
  rewrite extractList_spec. cbv zeta.
  destruct (nameField _), (addressField _); rewrite ?dom_insert_L;
    intros k; rewrite !elem_of_union, ?elem_of_singleton; tauto.
Qed.

Lemma buildSearchFromEnvelope_spec envelope subjectField :
  buildSearchFromEnvelope envelope subjectField =
    if negb (truthy envelope) then Ok ∅
    else if truthy (subjectOf envelope subjectField) then
      match subjectOf envelope subjectField with
      | JStr s => Ok (<["subject" := SStr (trim (toLowerCase s))]> (extractLists envelope))
      | _ => Throw notAFunction
      end
    else Ok (extractLists envelope).
Proof. reflexivity. Qed.

Lemma subjectOf_usable envelope subjectField :
  subjectUsable subjectField → ∃ t, subjectOf envelope subjectField = JStr t.
Proof.
  unfold subjectOf. intros [->|[t ->]]; [by eexists|].
  destruct (truthy (JStr t)); by eexists.
Qed.

Lemma buildSearchFromEnvelope_returns envelope subjectField :
  subjectUsable subjectField →
  ∃ search, buildSearchFromEnvelope envelope subjectField = Ok search.
Proof.
  intros [t Ht]%(subjectOf_usable envelope).
  rewrite buildSearchFromEnvelope_spec, Ht.
  repeat case_match; by eexists.
Qed.

Lemma extractLists_lookup envelope k :
  extractLists envelope !! k =
    if decide (k = "ccName") then nameField (namesOf (index envelope 6))
    else if decide (k = "cc") then addressField (addressesOf (index envelope 6))
    else if decide (k = "toName") then nameField (namesOf (index envelope 5))
    else if decide (k = "to") then addressField (addressesOf (index envelope 5))
    else if decide (k = "fromName") then nameField (namesOf (index envelope 2))
    else if decide (k = "from") then addressField (addressesOf (index envelope 2))
    else None.
Proof.
  unfold extractLists. rewrite !extractList_lookup by done.
  repeat case_decide; subst; try done; by repeat case_match.
Qed.

Lemma buildSearchFromEnvelope_lookup envelope subjectField search k :
  buildSearchFromEnvelope envelope subjectField = Ok search →
  truthy envelope = true → k ≠ "subject" →
  search !! k = extractLists envelope !! k.
Proof.
  rewrite buildSearchFromEnvelope_spec. intros H He Hk.
  rewrite He in H. simpl in H.
  repeat case_match; simplify_eq; by rewrite ?lookup_insert_ne.
Qed.

(** C7, amended. For a subject field that is a string or absent the
    extractor returns, whatever the envelope is.  For a truthy envelope
    the result has, per list, the addresses of exactly the entries with
    a truthy local part and a truthy domain, each [local@domain]
    lower-cased and trimmed, and the names of exactly the entries whose
    name is not blank, each lower-cased and trimmed, joined by one
    space; the key of an empty list is absent.  For a falsy envelope
    the result is empty. *)
Theorem extractor_fields :
  (∀ envelope subjectField,
     subjectUsable subjectField →
     ∃ search,
       buildSearchFromEnvelope envelope subjectField = Ok search
       ∧ (truthy envelope = true →
            search !! "from" = addressField (addressesOf (index envelope 2))
            ∧ search !! "fromName" = nameField (namesOf (index envelope 2))
            ∧ search !! "to" = addressField (addressesOf (index envelope 5))
            ∧ search !! "toName" = nameField (namesOf (index envelope 5))
            ∧ search !! "cc" = addressField (addressesOf (index envelope 6))
            ∧ search !! "ccName" = nameField (namesOf (index envelope 6)))
       ∧ (truthy envelope = false → search = ∅))
  ∧ buildSearchFromEnvelope (envelopeFrom [janeDoe]) JUndefined
      = Ok {[ "from" := SList ["jane@example.com"]; "fromName" := SStr "jane doe" ]}
  ∧ buildSearchFromEnvelope (envelopeFrom [noDomain]) JUndefined
      = Ok {[ "fromName" := SStr "jane doe" ]}
  ∧ buildSearchFromEnvelope (envelopeFrom []) JUndefined = Ok ∅
  ∧ buildSearchFromEnvelope (envelopeFrom [janeDoe; bob]) JUndefined
      = Ok {[ "from" := SList ["jane@example.com"; "bob@example.org"];
              "fromName" := SStr "jane doe bob" ]}.
Proof.
  split; [|by vm_compute].
  intros envelope subjectField Hs.
  destruct (buildSearchFromEnvelope_returns envelope subjectField Hs) as [search H].
  exists search. split; [done|]. split.
  - intros He.
    rewrite !(buildSearchFromEnvelope_lookup _ _ _ _ H He) by done.
    by rewrite !extractLists_lookup.
  - intros He. rewrite buildSearchFromEnvelope_spec, He in H. simpl in H. congruence.
Qed.

Lemma extractor_fields_witness :
  ∃ search,
    buildSearchFromEnvelope (envelopeFrom [blankName; bob]) (JStr " Hello ") = Ok search
    ∧ search !! "from" = Some (SList ["jane@example.com"; "bob@example.org"])
    ∧ search !! "fromName" = Some (SStr "bob").
Proof.
  destruct (proj1 extractor_fields (envelopeFrom [blankName; bob]) (JStr " Hello "))
    as (search & H & Hf & _).
  - right. exists " Hello ". reflexivity.
  - exists search. split; [exact H|].
    destruct (Hf eq_refl) as (H1 & H2 & _). split; [exact H1|exact H2].
Defined.

(** The claim C7 fails on a blank name: the entry has a display name
    that is not empty, and contributes no name. *)
Lemma blank_name_is_skipped :
  index blankName 0 = JStr " "
  ∧ nonEmpty " " = true
  ∧ buildSearchFromEnvelope (envelopeFrom [blankName]) JUndefined
      = Ok {[ "from" := SList ["jane@example.com"] ]}
  ∧ ({[ "from" := SList ["jane@example.com"] ]} : SearchIndex) !! "fromName" = None.
Proof. by vm_compute. Qed.

Lemma extractLists_dom envelope : dom (extractLists envelope) ⊆ searchKeys.
Proof.
  unfold extractLists, searchKeys. intros k Hk.
  repeat (apply extractList_dom, elem_of_union in Hk as [Hk|Hk];
          [apply elem_of_union in Hk as [Hk|Hk];
           apply elem_of_singleton in Hk as ->; set_solver|]).
  by apply elem_of_dom in Hk as [? Hk].
Qed.

Lemma buildSearchFromEnvelope_dom envelope subjectField search :
  buildSearchFromEnvelope envelope subjectField = Ok search →
  dom search ⊆ searchKeys.
Proof.
  rewrite buildSearchFromEnvelope_spec.
  pose proof (extractLists_dom envelope) as Hd.
  repeat case_match; intros [= <-];
    rewrite ?dom_insert_L; intros k Hk;
    try (apply elem_of_union in Hk as [Hk|Hk]);
    try (by apply Hd);
    try (apply elem_of_singleton in Hk as ->; unfold searchKeys;
         rewrite !elem_of_union, !elem_of_singleton; tauto);
    apply elem_of_dom in Hk as [? Hk]; by rewrite lookup_empty in Hk.
Qed.

(** ** The name patterns *)

(** Every name field that the extractor writes is in lower case. *)
Lemma buildSearchFromEnvelope_name_lower envelope subjectField search key v :
  buildSearchFromEnvelope envelope subjectField = Ok search →
  key ∈ nameKeys → search !! key = Some (SStr v) → toLowerCase v = v.
Proof.
  intros H Hkey Hv.
  assert (key = "fromName" ∨ key = "toName" ∨ key = "ccName") as Hk.
  { unfold nameKeys in Hkey. rewrite !elem_of_cons, elem_of_nil in Hkey. tauto. }
  destruct (truthy envelope) eqn:He.
  - rewrite (buildSearchFromEnvelope_lookup _ _ _ _ H He) in Hv
      by (by destruct Hk as [-> | [-> | ->]]).
    rewrite extractLists_lookup in Hv.
    destruct Hk as [-> | [-> | ->]]; repeat case_decide; try done;
      by eapply nameField_lower.
  - rewrite buildSearchFromEnvelope_spec, He in H. simpl in H.
    injection H as <-. by rewrite lookup_empty in Hv.
Qed.

Section NamePatterns.
Variable escapeRegexStr : string → string.

(** C6, amended. A mandatory [from] or [to] term is lower-cased and
    trimmed.  With an [@] the term must equal the address field,
    [search.from] for [from], and one of [search.to] and [search.cc]
    for [to].  Without, the escaped term is a pattern on the name
    field, [search.fromName] for [from], and one of [search.toName] and
    [search.ccName] for [to]; the pattern comes with no option.  The
    letter case of a term does not matter: payloads whose terms differ
    in letter case only compile to the same predicate, the term is in
    lower case, and so is every name field that the extractor writes.
    For the payload with [from: "alice@x.com"] alone the conjunction
    is [search.from = "alice@x.com"]. *)
Theorem from_to_predicates :
  (∀ db user p f q t,
     prepareSearchFilter escapeRegexStr db user p = Ok (f, q) →
     Payload.from p = Some t → t ≠ "" →
     let term := trim (toLowerCase t) in
     ∃ rest,
       Filter.and_ f =
         Some ((if includesChar "@" term then PEq "search.from" term
                else PRegex "search.fromName" (escapeRegexStr term)) :: rest))
  ∧ (∀ db user p f q t,
       prepareSearchFilter escapeRegexStr db user p = Ok (f, q) →
       Payload.to p = Some t → t ≠ "" →
       let term := trim (toLowerCase t) in
       ∃ before rest,
         before = fromTerms escapeRegexStr p
         ∧ Filter.and_ f =
             Some (before ++
                   (if includesChar "@" term
                    then POr [PEq "search.to" term; PEq "search.cc" term]
                    else POr [PRegex "search.toName" (escapeRegexStr term);
                              PRegex "search.ccName" (escapeRegexStr term)])
                   :: rest))
  ∧ (∀ p p' f,
       toLowerCase <$> Payload.from p = toLowerCase <$> Payload.from p' →
       stepFrom escapeRegexStr p f = stepFrom escapeRegexStr p' f)
  ∧ (∀ p p' f,
       toLowerCase <$> Payload.to p = toLowerCase <$> Payload.to p' →
       stepTo escapeRegexStr p f = stepTo escapeRegexStr p' f)
  ∧ (∀ t, toLowerCase (trim (toLowerCase t)) = trim (toLowerCase t))
  ∧ (∀ envelope subjectField search key v,
       buildSearchFromEnvelope envelope subjectField = Ok search →
       key ∈ nameKeys → search !! key = Some (SStr v) → toLowerCase v = v)
  ∧ (∀ db user u,
       users_findOne db user = Ok (Some u) →
       ∃ f, prepareSearchFilter escapeRegexStr db user alicePayload = Ok (f, None)
            ∧ Filter.and_ f = Some [PEq "search.from" "alice@x.com"]).
Proof.
  repeat apply conj;
    [| | | |apply term_lower|apply buildSearchFromEnvelope_name_lower|].
  - intros db user p f q t Hp Ht Hne term.
    rewrite (prepareSearchFilter_and _ _ _ _ _ _ Hp).
    unfold fromTerms, termOf. rewrite Ht, (strTruthy_Some t Hne). simpl.
    by eexists.
  - intros db user p f q t Hp Ht Hne term.
    rewrite (prepareSearchFilter_and _ _ _ _ _ _ Hp).
    exists (fromTerms escapeRegexStr p). unfold toTerms at 1, termOf.
    rewrite Ht, (strTruthy_Some t Hne), orb_true_r. simpl.
    eexists. split; [done|]. unfold toPred. fold term.
    by destruct (includesChar "@" term).
  - intros p p' f H. unfold stepFrom.
    destruct (Payload.from p) as [t|], (Payload.from p') as [t'|];
      simplify_eq/=; [|done].
    by rewrite <- (nonEmpty_toLowerCase t), <- (nonEmpty_toLowerCase t'), H.
  - intros p p' f H. unfold stepTo.
    destruct (Payload.to p) as [t|], (Payload.to p') as [t'|];
      simplify_eq/=; [|done].
    by rewrite <- (nonEmpty_toLowerCase t), <- (nonEmpty_toLowerCase t'), H.
  - intros db user u Hu.
    destruct (prepareSearchFilter_unscoped escapeRegexStr db user alicePayload u)
      as (f & Hf); [done..|].
    exists f. split; [done|].
    by rewrite (prepareSearchFilter_and _ _ _ _ _ _ Hf).
Qed.
End NamePatterns.

Lemma from_to_predicates_witness :
  ∃ f rest,
    prepareSearchFilter (λ s, s) (dbWith (Ok 3%N) (Ok [4%N]) (Ok [9%N])) 1%N
      janeToBobPayload = Ok (f, None)
    ∧ Filter.and_ f = Some (PRegex "search.fromName" "jane" :: rest).
Proof.
  eexists _. 
  destruct (proj1 (from_to_predicates (λ s, s))
              (dbWith (Ok 3%N) (Ok [4%N]) (Ok [9%N])) 1%N janeToBobPayload
              _ None " Jane " eq_refl eq_refl) as [rest Hrest].
  - discriminate.
  - exists rest. split; [reflexivity|exact Hrest].
Defined.

(** The claim C6 fails on the payload [{ from: "Jane" }]: the compiled
    predicate is the pattern [jane] with no option, and as the store
    reads it the pattern matches the name [jane doe] and not the name
    [Jane Doe]. *)
Lemma name_pattern_is_case_sensitive :
  (∃ f, prepareSearchFilter (λ s, s) (dbWith (Ok 3%N) (Ok [4%N]) (Ok [9%N])) 1%N
          janePayload = Ok (f, None)
        ∧ Filter.and_ f = Some [PRegex "search.fromName" "jane"])
  ∧ toLowerCase "Jane Doe" = toLowerCase "jane doe"
  ∧ regexTest "jane" "jane doe" = Some true
  ∧ regexTest "jane" "Jane Doe" = Some false
  ∧ ¬ caseInsensitive "jane".
Proof.
  split; [by eexists|]. do 3 (split; [reflexivity|]).
  intros H. by specialize (H "Jane Doe" "jane doe" eq_refl).
Qed.

(** ** The index and the subject predicates *)

Section SubjectWords.
Variable escapeRegexStr : string → string.

(** C10. The object that the extractor builds has no key outside
    [from], [fromName], [to], [toName], [cc], [ccName] and [subject],
    so it has no [subjectWords]; and the compiled predicates of a
    subject filter are all on [search.subjectWords]: a mandatory
    subject adds to [$and], after the from and to predicates, one
    prefix pattern on that field per word, and a subject of the [or]
    bundle adds to [$or], as its last branch, one prefix pattern on
    that field, or the conjunction of one per word. *)
Theorem subjectWords_not_indexed :
  (∀ envelope subjectField search,
     buildSearchFromEnvelope envelope subjectField = Ok search →
     dom search ⊆ searchKeys ∧ search !! "subjectWords" = None)
  ∧ (∀ db user p f q t,
       prepareSearchFilter escapeRegexStr db user p = Ok (f, q) →
       Payload.subject p = Some t → t ≠ "" →
       Filter.and_ f =
         Some (fromTerms escapeRegexStr p ++ toTerms escapeRegexStr p ++
               map (λ word, PRegex "search.subjectWords" ("^" +:+ escapeRegexStr word))
                   (splitWords (trim (toLowerCase t)))))
  ∧ (∀ db user p f q o t,
       prepareSearchFilter escapeRegexStr db user p = Ok (f, q) →
       Payload.or p = Some o → OrTerms.subject o = Some t → t ≠ "" →
       ∃ before,
         Filter.or_ f =
           Some (before ++
                 [match splitWords (trim (toLowerCase t)) with
                  | [word] =>
                      PRegex "search.subjectWords" ("^" +:+ escapeRegexStr word)
                  | words =>
                      PAnd (map (λ word, PRegex "search.subjectWords"
                                           ("^" +:+ escapeRegexStr word)) words)
                  end])).
Proof.
  repeat apply conj.
  - intros envelope subjectField search H.
    pose proof (buildSearchFromEnvelope_dom _ _ _ H) as Hd.
    split; [done|]. apply not_elem_of_dom. intros Hin%Hd.
    unfold searchKeys in Hin.
    repeat (apply elem_of_union in Hin as [Hin|Hin]);
      by apply elem_of_singleton in Hin.
  - intros db user p f q t Hp Ht Hne.
    rewrite (prepareSearchFilter_and _ _ _ _ _ _ Hp).
    unfold subjectTerms, termOf. rewrite Ht, (strTruthy_Some t Hne).
    by rewrite !orb_true_r.
  - intros db user p f q o t Hp Ho Ht Hne.
    apply (prepareSearchFilter_or escapeRegexStr db user p f q o t Hp Ho Ht Hne).
Qed.
End SubjectWords.

Lemma subjectWords_not_indexed_witness :
  ∃ f,
    prepareSearchFilter (λ s, s) (dbWith (Ok 3%N) (Ok [4%N]) (Ok [9%N])) 1%N
      subjectPayload = Ok (f, None)
    ∧ Filter.and_ f = Some [PRegex "search.subjectWords" "^hello";
                            PRegex "search.subjectWords" "^world"].
Proof.
  eexists. split; [reflexivity|].
  apply (proj1 (proj2 (subjectWords_not_indexed (λ s, s)))
           (dbWith (Ok 3%N) (Ok [4%N]) (Ok [9%N])) 1%N subjectPayload
           _ None "Hello  World" eq_refl eq_refl).
  discriminate.
Defined.

(** ** The migration *)

Global Instance ascending_trans : Transitive ascending.
Proof. unfold ascending. intros x y z ??. lia. Qed.
Global Instance ascending_total : Total ascending.
Proof. unfold ascending. intros x y. lia. Qed.
Global Instance descending_trans : Transitive descending.
Proof. unfold descending. intros x y z ??. lia. Qed.
Global Instance descending_total : Total descending.
Proof. unfold descending. intros x y. lia. Qed.

Lemma elem_of_selected q c kd :
  kd ∈ selected q c ↔ c !! kd.1 = Some kd.2 ∧ matches q kd.1 kd.2 = true.
Proof.
  unfold selected. rewrite list_elem_of_filter.
  destruct kd as [k d]. rewrite elem_of_map_to_list. simpl. tauto.
Qed.

Lemma findBatch_sorted q c :
  findBatch q c = take BATCH_SIZE (merge_sort ascending (selected q c)).
Proof. reflexivity. Qed.

Lemma elem_of_findBatch q c kd :
  kd ∈ findBatch q c → c !! kd.1 = Some kd.2 ∧ matches q kd.1 kd.2 = true.
Proof.
  rewrite findBatch_sorted. intros H.
  apply elem_of_selected.
  rewrite <- (merge_sort_Permutation ascending).
  by apply (subseteq_take BATCH_SIZE).
Qed.

Lemma matches_spec q id doc :
  matches q id doc = true ↔
    Message.search doc = None ∧ (id ≤ q_lte q)%N
    ∧ match q_gt q with Some lastId => (lastId < id)%N | None => True end.
Proof.
  unfold matches. destruct (Message.search doc).
  - split; [done|]. by intros [? _].
  - rewrite andb_true_iff, N.leb_le.
    destruct (q_gt q); rewrite ?N.ltb_lt; tauto.
Qed.

(** An empty batch: the query selects nothing. *)
Lemma findBatch_nil q c id doc :
  findBatch q c = [] → c !! id = Some doc → matches q id doc = false.
Proof.
  rewrite findBatch_sorted. intros H Hc.
  assert (merge_sort ascending (selected q c) = []) as Hs.
  { destruct (merge_sort _ _); [done|]. by vm_compute in H. }
  assert (selected q c = []) as Hn.
  { apply Permutation_nil_r. by rewrite <- Hs, merge_sort_Permutation. }
  apply not_true_is_false. intros Hm.
  assert ((id, doc) ∈ selected q c) as Hin by (by apply elem_of_selected).
  rewrite Hn in Hin. by apply elem_of_nil in Hin.
Qed.

(** A batch ends below every selected document that it leaves out. *)
Lemma findBatch_last q c lastDoc id doc :
  last (findBatch q c) = Some lastDoc →
  c !! id = Some doc → matches q id doc = true →
  id ∈ (findBatch q c).*1 ∨ (lastDoc.1 < id)%N.
Proof.
  rewrite findBatch_sorted. set (l := merge_sort ascending (selected q c)).
  intros Hlast Hc Hm.
  assert ((id, doc) ∈ l) as Hin.
  { unfold l. rewrite merge_sort_Permutation. by apply elem_of_selected. }
  assert (StronglySorted ascending l) as Hsorted
    by apply (StronglySorted_merge_sort _).
  assert (NoDup l.*1) as Hnd.
  { unfold l. rewrite merge_sort_Permutation. unfold selected.
    apply (sublist_NoDup _ (map_to_list c).*1); [apply NoDup_fst_map_to_list|].
    apply fmap_sublist, sublist_filter. }
  rewrite <- (take_drop BATCH_SIZE l) in Hin, Hsorted, Hnd.
  apply elem_of_app in Hin as [Hin|Hin].
  - left. by apply (list_elem_of_fmap_2 fst) in Hin.
  - right. apply last_Some_elem_of in Hlast.
    pose proof (StronglySorted_app_1_elem_of _ _ _ _ _ Hsorted Hlast Hin) as Hle.
    unfold ascending in Hle. simpl in Hle.
    rewrite fmap_app in Hnd. apply NoDup_app in Hnd as (_ & Hdis & _).
    apply (list_elem_of_fmap_2 fst) in Hlast, Hin.
    specialize (Hdis _ Hlast). simpl in Hin.
    assert (lastDoc.1 ≠ id) by congruence. lia.
Qed.

(** [findMax] returns the document with the largest identifier. *)
Lemma findMax_nil c : findMax c = [] → c = ∅.
Proof.
  unfold findMax. intros H. apply map_to_list_empty_iff, Permutation_nil_r.
  rewrite <- (merge_sort_Permutation descending).
  by destruct (merge_sort _ _).
Qed.

Lemma findMax_cons c maxIdDoc rest id :
  findMax c = maxIdDoc :: rest → is_Some (c !! id) →
  is_Some (c !! maxIdDoc.1) ∧ (id ≤ maxIdDoc.1)%N.
Proof.
  unfold findMax. intros H [doc Hdoc].
  pose proof (StronglySorted_merge_sort descending (map_to_list c)) as Hs.
  pose proof (merge_sort_Permutation descending (map_to_list c)) as Hp.
  destruct (merge_sort descending (map_to_list c)) as [|d l]; [done|].
  simpl in H. rewrite take_0 in H. injection H as <- <-.
  split.
  - exists d.2. apply elem_of_map_to_list. rewrite <- Hp.
    destruct d. by left.
  - apply elem_of_map_to_list in Hdoc. rewrite <- Hp in Hdoc.
    apply StronglySorted_cons in Hs as [Hall _].
    apply elem_of_cons in Hdoc as [<-|Hdoc]; [done|].
    rewrite Forall_forall in Hall. by apply Hall in Hdoc.
Qed.

(** The staged updates are keyed by the identifiers of the batch. *)
Lemma buildOps_ids batch ops : buildOps batch = Ok ops → ops.*1 = batch.*1.
Proof.
  revert ops. induction batch as [|doc rest IH]; intros ops; simpl.
  - by intros [= <-].
  - destruct (buildSearchFromEnvelope _ _); [|done].
    destruct (buildOps rest) as [ops'|]; [|done].
    intros [= <-]. cbn. f_equal. by apply IH.
Qed.

Lemma set_search_same s doc :
  Message.search doc = Some s → Message.set_search s doc = doc.
Proof. destruct doc. simpl. by intros ->. Qed.

(** One update sets the [search] field of the document it names and
    touches no other. *)
Lemma updateOne_lookup op c id :
  (updateOne op c).1 !! id =
    if decide (op.1 = id) then Message.set_search op.2 <$> c !! id else c !! id.
Proof.
  unfold updateOne. destruct (c !! op.1) as [doc|] eqn:E.
  - destruct (decide (Message.search doc = Some op.2)) as [Hs|Hs]; simpl.
    + case_decide as Hid; [|done]. subst id. rewrite E. simpl.
      by rewrite set_search_same.
    + rewrite lookup_insert. case_decide as Hid; [|done].
      subst id. by rewrite E.
  - simpl. case_decide as Hid; [|done]. subst id. by rewrite E.
Qed.

Lemma bulkWrite_store ops c n :
  (foldl (λ acc op, let '(c', k) := updateOne op acc.1 in (c', acc.2 + k)) (c, n) ops).1
  = foldl (λ c op, (updateOne op c).1) c ops.
Proof.
  revert c n. induction ops as [|op ops IH]; intros c n; simpl; [done|].
  destruct (updateOne op c) as [c' k] eqn:E. by rewrite IH.
Qed.

Lemma bulkWrite_lookup ops c id :
  (bulkWrite ops c).1 !! id = applyOps ops id <$> c !! id.
Proof.
  unfold bulkWrite. rewrite bulkWrite_store. unfold applyOps.
  revert c. induction ops as [|op ops IH]; intros c; simpl.
  - by destruct (c !! id).
  - rewrite IH, updateOne_lookup. case_decide; [|done].
    by destruct (c !! id).
Qed.

Lemma applyOps_other ops id doc : id ∉ ops.*1 → applyOps ops id doc = doc.
Proof.
  unfold applyOps. revert doc. induction ops as [|op ops IH]; intros doc Hid; [done|].
  simpl in *. apply not_elem_of_cons in Hid as [Hne Hid].
  rewrite decide_False by done. by apply IH.
Qed.

Lemma applyOps_indexed ops id doc :
  is_Some (Message.search doc) → is_Some (Message.search (applyOps ops id doc)).
Proof.
  unfold applyOps. revert doc. induction ops as [|op ops IH]; intros doc Hs; [done|].
  simpl. apply IH. by case_decide.
Qed.

Lemma applyOps_hit ops id doc :
  id ∈ ops.*1 → is_Some (Message.search (applyOps ops id doc)).
Proof.
  unfold applyOps. revert doc. induction ops as [|op ops IH]; intros doc Hid.
  - by apply elem_of_nil in Hid.
  - simpl in *. destruct (decide (op.1 = id)) as [Heq|Hne].
    + by apply (applyOps_indexed ops id).
    + apply IH. apply elem_of_cons in Hid as [Hid|Hid]; [congruence|done].
Qed.

(** A bulk write leaves the documents that it does not name. *)
Lemma bulkWrite_other ops c id :
  id ∉ ops.*1 → (bulkWrite ops c).1 !! id = c !! id.
Proof.
  intros Hid. rewrite bulkWrite_lookup.
  destruct (c !! id); simpl; [|done]. by rewrite applyOps_other.
Qed.

Lemma bulkWrite_dom ops c id :
  is_Some ((bulkWrite ops c).1 !! id) ↔ is_Some (c !! id).
Proof. rewrite bulkWrite_lookup. by rewrite fmap_is_Some. Qed.

(** ** The migration boundary *)

Lemma findBatch_bounded m lastId c :
  Forall (λ kd, (kd.1 ≤ m)%N) (findBatch {| q_lte := m; q_gt := lastId |} c).
Proof.
  apply Forall_forall. intros kd [_ Hm]%elem_of_findBatch.
  by apply matches_spec in Hm as (_ & Hle & _).
Qed.

Lemma loop_withinBound env m fuel st :
  ∃ rest,
    events (loop env m fuel st) = ls_events st ++ rest
    ∧ Forall (withinBound m) rest.
Proof.
  revert st. induction fuel as [|fuel IH]; intros st; simpl.
  { exists []. by rewrite app_nil_r. }
  set (q := {| q_lte := m; q_gt := lastId st |}).
  set (c := env (ls_tick st) (ls_store st)).
  assert (withinBound m (EvFetch q (findBatch q c))) as Hf.
  { split; [done|]. apply findBatch_bounded. }
  destruct (last (findBatch q c)) as [lastDoc|];
    [|by exists [EvFetch q (findBatch q c)]; split; [|constructor]].
  destruct (buildOps (findBatch q c)) as [bulkOps|err] eqn:Hops;
    [|by exists [EvFetch q (findBatch q c)]; split; [|constructor]].
  destruct (bulkWrite bulkOps (env (S (ls_tick st)) c)) as [c2 modifiedCount] eqn:Hw.
  match goal with |- context [loop env m fuel ?st'] =>
    destruct (IH st') as (rest & -> & Hrest) end.
  simpl. eexists. rewrite <- !app_assoc. split; [done|]. simpl.
  constructor; [done|]. constructor; [|done].
  assert (∀ id, id ∈ bulkOps.*1 → (id ≤ m)%N) as Hids.
  { rewrite (buildOps_ids _ _ Hops). intros id (kd & -> & Hkd)%list_elem_of_fmap.
    pose proof (findBatch_bounded m (lastId st) c) as Hb.
    rewrite Forall_forall in Hb. by apply Hb. }
  split.
  - apply Forall_forall. intros op Hop. by apply Hids, list_elem_of_fmap_2.
  - intros id Hid. change c2 with (c2, modifiedCount).1. rewrite <- Hw.
    apply bulkWrite_other. intros Hin%Hids. lia.
Qed.

(** C9. Whatever other clients do to the store during a run, the run
    reads the maximum identifier once, as its first operation, and
    every later operation stays at or below it: each count and fetch
    is bounded by it, each fetched document and each staged update has
    an identifier at or below it, and each bulk write leaves every
    document above it as it is, with or without a [search] field. *)
Theorem migration_boundary env fuel c :
  match events (addSearchFields env fuel c) with
  | [EvReadMax None] => True
  | EvReadMax (Some maxIdAtStart) :: rest => Forall (withinBound maxIdAtStart) rest
  | _ => False
  end.
Proof.
  unfold addSearchFields.
  destruct (findMax (env 0 c)) as [|maxIdDoc ?]; [done|].
  set (m := maxIdDoc.1). set (q := {| q_lte := m; q_gt := None |}).
  destruct (Nat.eqb _ 0); simpl.
  - by repeat constructor.
  - match goal with |- context [loop env m fuel ?st] =>
      destruct (loop_withinBound env m fuel st) as (rest & -> & Hrest) end.
    simpl. by constructor.
Qed.

(** ** Idempotence *)

Lemma elem_of_pending c id :
  id ∈ pending c ↔ ∃ doc, c !! id = Some doc ∧ Message.search doc = None.
Proof.
  unfold pending. rewrite elem_of_dom. unfold is_Some.
  setoid_rewrite map_lookup_filter_Some. simpl. done.
Qed.

Lemma pending_size c : size (pending c) ≤ size c.
Proof.
  unfold pending. rewrite size_dom. apply map_subseteq_size, map_filter_subseteq.
Qed.

(** A step of the loop on a store that no one else writes to. *)
Lemma loop_quiet_step m fuel st :
  loop quiet m (S fuel) st =
    let query := {| q_lte := m; q_gt := lastId st |} in
    let batch := findBatch query (ls_store st) in
    let evs := ls_events st ++ [EvFetch query batch] in
    match last batch with
    | None =>
        {| status := Done; store := ls_store st;
           processedCount := ls_processedCount st; events := evs |}
    | Some lastDoc =>
        match buildOps batch with
        | Throw err =>
            {| status := Aborted err; store := ls_store st;
               processedCount := ls_processedCount st; events := evs |}
        | Ok bulkOps =>
            loop quiet m fuel
              {| ls_store := (bulkWrite bulkOps (ls_store st)).1;
                 ls_tick := S (S (ls_tick st));
                 lastId := Some lastDoc.1;
                 ls_processedCount :=
                   ls_processedCount st + (bulkWrite bulkOps (ls_store st)).2;
                 batchNumber := S (batchNumber st);
                 ls_events :=
                   evs ++ [EvBulkWrite bulkOps (ls_store st)
                             (bulkWrite bulkOps (ls_store st)).1] |}
        end
    end.
Proof.
  simpl. unfold quiet at 1 2 4.
  destruct (last _); [|done]. destruct (buildOps _); [|done].
  unfold quiet at 1. by destruct (bulkWrite _ _).
Qed.

(** What a batch does to the documents without a [search] field. *)
Lemma batch_progress m st lastDoc bulkOps :
  let q := {| q_lte := m; q_gt := lastId st |} in
  let c := ls_store st in
  let c2 := (bulkWrite bulkOps c).1 in
  last (findBatch q c) = Some lastDoc →
  buildOps (findBatch q c) = Ok bulkOps →
  pendingBeyond m (lastId st) c →
  pendingBeyond m (Some lastDoc.1) c2 ∧ pending c2 ⊂ pending c.
Proof.
  intros q c c2 Hlast Hops Hinv.
  assert (∀ id doc', c2 !! id = Some doc' → Message.search doc' = None →
            (id ∉ bulkOps.*1) ∧ c !! id = Some doc') as Hback.
  { intros id doc' Hc2 Hs. unfold c2 in Hc2. rewrite bulkWrite_lookup in Hc2.
    destruct (c !! id) as [doc|] eqn:Hc; [|done]. simpl in Hc2.
    injection Hc2 as <-.
    assert (id ∉ bulkOps.*1) as Hid.
    { intros Hin%(applyOps_hit _ _ doc). rewrite Hs in Hin. by destruct Hin. }
    split; [done|]. by rewrite applyOps_other. }
  split.
  - intros id doc' Hc2 Hs Hle. destruct (Hback id doc' Hc2 Hs) as [Hid Hc].
    assert (matches q id doc' = true) as Hm.
    { apply matches_spec. split; [done|]. split; [done|]. by eapply Hinv. }
    destruct (findBatch_last q c lastDoc id doc' Hlast Hc Hm) as [Hin|Hlt]; [|done].
    by rewrite <- (buildOps_ids _ _ Hops) in Hin.
  - pose proof Hlast as Hl. apply last_Some_elem_of, elem_of_findBatch in Hl.
    destruct Hl as [Hl Hm]. apply matches_spec in Hm as (Hs & _).
    assert (lastDoc.1 ∈ bulkOps.*1) as Hin.
    { rewrite (buildOps_ids _ _ Hops). apply list_elem_of_fmap_2.
      by apply last_Some_elem_of. }
    split.
    + intros id (doc' & Hc2 & Hs')%elem_of_pending.
      apply elem_of_pending. exists doc'. split; [|done]. by apply Hback.
    + intros Hsub. assert (lastDoc.1 ∈ pending c2) as Hp.
      { apply Hsub, elem_of_pending. by exists lastDoc.2. }
      apply elem_of_pending in Hp as (doc' & Hc2 & Hs').
      by destruct (Hback _ _ Hc2 Hs').
Qed.

Lemma loop_quiet_done m fuel st :
  boundedBy m (ls_store st) →
  pendingBeyond m (lastId st) (ls_store st) →
  status (loop quiet m fuel st) = Done →
  allIndexed (store (loop quiet m fuel st)).
Proof.
  revert st. induction fuel as [|fuel IH]; intros st Hb Hinv; [done|].
  rewrite loop_quiet_step. cbv zeta.
  destruct (last (findBatch _ _)) as [lastDoc|] eqn:Hlast.
  - destruct (buildOps _) as [bulkOps|err] eqn:Hops; [|done].
    apply IH; simpl.
    + intros id Hid%bulkWrite_dom. by apply Hb.
    + by apply (batch_progress m st lastDoc bulkOps).
  - intros _ id doc Hc. simpl in Hc.
    destruct (Message.search doc) eqn:Hs; [done|].
    apply last_None in Hlast.
    pose proof (findBatch_nil _ _ _ _ Hlast Hc) as Hno.
    assert (matches {| q_lte := m; q_gt := lastId st |} id doc = true) as Hm.
    { assert (id ≤ m)%N as Hle by (apply Hb; by exists doc).
      apply matches_spec. split; [done|]. split; [done|]. by eapply Hinv. }
    congruence.
Qed.

Lemma loop_quiet_dom m fuel st id :
  is_Some (store (loop quiet m fuel st) !! id) ↔ is_Some (ls_store st !! id).
Proof.
  revert st. induction fuel as [|fuel IH]; intros st; [done|].
  rewrite loop_quiet_step. cbv zeta.
  destruct (last (findBatch _ _)) as [lastDoc|]; [|done].
  destruct (buildOps _) as [bulkOps|err]; [|done].
  rewrite IH. simpl. apply bulkWrite_dom.
Qed.

Lemma applyOps_subject ops id doc :
  Message.subject (applyOps ops id doc) = Message.subject doc.
Proof.
  unfold applyOps. revert doc. induction ops as [|op ops IH]; intros doc; [done|].
  simpl. rewrite IH. by case_decide.
Qed.

Lemma buildOps_usable c batch :
  usable c → (∀ kd, kd ∈ batch → c !! kd.1 = Some kd.2) →
  ∃ ops, buildOps batch = Ok ops.
Proof.
  intros Hu. induction batch as [|kd batch IH]; intros Hin; simpl; [by eexists|].
  destruct (buildSearchFromEnvelope_returns (Message.envelope kd.2) (Message.subject kd.2))
    as [s ->].
  { eapply Hu, Hin. by left. }
  destruct IH as [ops ->]; [|by eexists].
  intros kd' Hkd'. apply Hin. by right.
Qed.

(** The loop ends within as many batches as there are documents
    without a [search] field, and one more. *)
Lemma loop_quiet_completes m fuel st :
  usable (ls_store st) → size (pending (ls_store st)) < fuel →
  pendingBeyond m (lastId st) (ls_store st) →
  status (loop quiet m fuel st) = Done.
Proof.
  revert st. induction fuel as [|fuel IH]; intros st Hu Hfuel Hinv; [lia|].
  rewrite loop_quiet_step. cbv zeta.
  destruct (last (findBatch _ _)) as [lastDoc|] eqn:Hlast; [|done].
  destruct (buildOps_usable (ls_store st) (findBatch {| q_lte := m; q_gt := lastId st |} (ls_store st)))
    as [bulkOps Hops]; [done|by intros kd [? _]%elem_of_findBatch|].
  rewrite Hops.
  destruct (batch_progress m st lastDoc bulkOps Hlast Hops Hinv) as [Hinv' Hsub].
  apply IH; simpl; [|apply subset_size in Hsub; lia|done].
  intros id doc' Hc2. rewrite bulkWrite_lookup in Hc2.
  destruct (ls_store st !! id) as [doc|] eqn:Hc; [|done].
  injection Hc2 as <-. rewrite applyOps_subject. by eapply Hu.
Qed.

Lemma countDocuments_0 q c :
  countDocuments q c = 0 ↔ ∀ id doc, c !! id = Some doc → matches q id doc = false.
Proof.
  unfold countDocuments. fold (selected q c). rewrite length_zero_iff_nil. split.
  - intros Hn id doc Hc. apply not_true_is_false. intros Hm.
    assert ((id, doc) ∈ selected q c) as Hin by (by apply elem_of_selected).
    rewrite Hn in Hin. by apply elem_of_nil in Hin.
  - intros Hno. destruct (selected q c) as [|kd l] eqn:E; [done|].
    assert (kd ∈ selected q c) as [Hc Hm]%elem_of_selected
      by (rewrite E; by left).
    apply Hno in Hc. congruence.
Qed.

(** A run on a store whose documents all have a [search] field
    reads, finds nothing to migrate, and leaves the store as it is. *)
Lemma addSearchFields_indexed fuel c :
  allIndexed c →
  let r := addSearchFields quiet fuel c in
  status r = Done ∧ processedCount r = 0 ∧ store r = c
  ∧ Forall readsOnly (events r).
Proof.
  intros Hall. unfold addSearchFields, quiet.
  destruct (findMax c) as [|maxIdDoc ?]; [by repeat constructor|].
  destruct (countDocuments _ c) as [|n] eqn:Hcount; [by repeat constructor|].
  assert (countDocuments {| q_lte := maxIdDoc.1; q_gt := None |} c = 0) as H0.
  { apply countDocuments_0. intros id doc Hc. apply not_true_is_false.
    intros (Hs & _)%matches_spec. apply Hall in Hc. rewrite Hs in Hc.
    by destruct Hc. }
  congruence.
Qed.

(** A run that ends leaves every document with a [search] field,
    when no one else writes to the store. *)
Lemma addSearchFields_done fuel c :
  status (addSearchFields quiet fuel c) = Done →
  allIndexed (store (addSearchFields quiet fuel c)).
Proof.
  unfold addSearchFields. change (quiet 1 (quiet 0 c)) with c.
  change (quiet 0 c) with c.
  destruct (findMax c) as [|maxIdDoc rest] eqn:Hmax.
  - intros _ id doc Hc. simpl in Hc. apply findMax_nil in Hmax. subst c.
    by rewrite lookup_empty in Hc.
  - assert (boundedBy maxIdDoc.1 c) as Hb.
    { intros id Hid. by destruct (findMax_cons c maxIdDoc rest id Hmax Hid). }
    destruct (Nat.eqb _ 0) eqn:Hcount.
    + intros _ id doc Hc. simpl in Hc.
      apply Nat.eqb_eq in Hcount.
      pose proof (proj1 (countDocuments_0 _ _) Hcount id doc Hc) as Hno.
      destruct (Message.search doc) eqn:Hs; [done|].
      assert (matches {| q_lte := maxIdDoc.1; q_gt := None |} id doc = true) as Hm.
      { apply matches_spec. split; [done|]. split; [|done].
        apply Hb. by exists doc. }
      congruence.
    + by apply loop_quiet_done.
Qed.

Lemma addSearchFields_completes fuel c :
  usable c → size c < fuel → status (addSearchFields quiet fuel c) = Done.
Proof.
  intros Hu Hfuel. unfold addSearchFields.
  change (quiet 1 (quiet 0 c)) with c. change (quiet 0 c) with c.
  destruct (findMax c) as [|maxIdDoc rest]; [done|].
  destruct (Nat.eqb _ 0); [done|].
  apply loop_quiet_completes; simpl; [done| |done].
  pose proof (pending_size c). lia.
Qed.

(** C8. On a store that no one else writes to: a run ends when its
    fuel exceeds the number of documents and every subject field is a
    string or absent; a run that has ended leaves every document with
    a [search] field; and a second run on the store it leaves ends,
    fetches and writes nothing, reports no processed document and
    leaves the store, so every [search] field, as the first run left
    it. *)
Theorem migration_idempotent :
  (∀ fuel c, usable c → size c < fuel →
     status (addSearchFields quiet fuel c) = Done)
  ∧ (∀ fuel fuel' c,
       status (addSearchFields quiet fuel c) = Done →
       let c1 := store (addSearchFields quiet fuel c) in
       let r2 := addSearchFields quiet fuel' c1 in
       allIndexed c1
       ∧ status r2 = Done
       ∧ processedCount r2 = 0
       ∧ store r2 = c1
       ∧ Forall readsOnly (events r2)).
Proof.
  split; [apply addSearchFields_completes|].
  intros fuel fuel' c Hdone c1 r2.
  pose proof (addSearchFields_done fuel c Hdone) as Hall.
  split; [done|]. by apply addSearchFields_indexed.
Qed.

Lemma migration_idempotent_witness :
  let c1 := store (addSearchFields quiet 4 sampleMessages) in
  let r2 := addSearchFields quiet 0 c1 in
  allIndexed c1
  ∧ status r2 = Done
  ∧ processedCount r2 = 0
  ∧ store r2 = c1
  ∧ Forall readsOnly (events r2).
Proof.
  apply (proj2 migration_idempotent 4 0 sampleMessages).
  vm_compute. reflexivity.
Defined.


(** * Further properties *)

(** ** Every input of the range parser *)

Lemma Number_allDigits s : allDigits s = true → Number s ≠ NNaN.
Proof. intros H. by apply Number_digits, allDigits_only. Qed.

Lemma strictEq_eq a b : strictEq a b = true → a = b ∧ a ≠ NNaN.
Proof.
  destruct a, b; simpl; try done.
  intros ->%Z.eqb_eq. done.
Qed.

Lemma strictEq_neq a b : strictEq a b = false → a ≠ NNaN → a ≠ b.
Proof.
  destruct a, b; simpl; try done.
  intros H%Z.eqb_neq _. congruence.
Qed.

Lemma minusSign_antisym a b :
  a ≠ NNaN → b ≠ NNaN → minusSign b a = (- minusSign a b)%Z.
Proof.
  destruct a, b; simpl; try done. intros _ _.
  rewrite <- Z.sgn_opp. f_equal. lia.
Qed.

Lemma minusSign_0 a b :
  a ≠ NNaN → b ≠ NNaN → minusSign a b = 0%Z → a = b.
Proof.
  destruct a, b; simpl; try done. intros _ _ H%Z.sgn_null_iff. f_equal. lia.
Qed.

(** The comma pattern needs a comma once the digits pattern failed. *)
Lemma splitOn_length sep s :
  includesChar sep s = true → 2 ≤ length (splitOn sep s).
Proof.
  induction s as [|c r IH]; simpl; [done|].
  pose proof (splitOn_nonempty sep r) as Hne.
  destruct (Ascii.eqb c sep); simpl.
  - intros _. destruct (splitOn sep r); simpl; [done|lia].
  - intros H%IH. destruct (splitOn sep r); simpl in *; lia.
Qed.

Lemma isUidList_comma s :
  allDigits s = false → isUidList s = true → includesChar "," s = true.
Proof.
  intros Hd Hl. apply not_false_is_true. intros Hno.
  unfold isUidList in Hl. rewrite splitOn_absent in Hl by done.
  simpl in Hl. rewrite andb_true_r in Hl. congruence.
Qed.

(** X1. Whatever string it is given, the range parser never returns
    [NaN] as a value or as a bound: an equality constraint holds a
    number, a member-of list holds at least two numbers in ascending
    order, and a range has a number as its lower bound and, when it has
    an upper bound, a strictly larger number. *)
Theorem uidRangeStringToQuery_wellFormed uidRange q :
  uidRangeStringToQuery uidRange = Some q → wellFormedUid q.
Proof.
  unfold uidRangeStringToQuery. destruct uidRange as [s|]; [|done].
  destruct (negb (nonEmpty s)); [done|].
  destruct (allDigits s) eqn:Hd.
  { intros [= <-]. by apply Number_allDigits. }
  destruct (isUidList s) eqn:Hl.
  { intros [= <-]. simpl.
    assert (Forall (λ n, n ≠ NNaN) (map Number (splitOn "," s))) as Hall.
    { apply Forall_forall. intros n (p & -> & Hp)%list_elem_of_fmap.
      unfold isUidList in Hl. rewrite forallb_forall in Hl.
      by apply Number_allDigits, Hl, list_elem_of_In. }
    split; [by rewrite sortBy_Permutation|]. split; [by apply sortBy_Sorted|].
    rewrite sortBy_Permutation, length_map.
    by apply splitOn_length, isUidList_comma. }
  destruct (isUidPair s) eqn:Hp; [|done].
  unfold isUidPair in Hp.
  destruct (splitOn ":" s) as [|a [|b [|??]]]; try done.
  apply andb_prop in Hp as [Ha Hb]. apply Number_allDigits in Ha.
  simpl. unfold starLast at 1. simpl.
  apply orb_prop in Hb as [Hb|Hb].
  - apply Number_allDigits in Hb.
    destruct (minusSign (Number a) (Number b) <=? 0)%Z eqn:E.
    + apply minusSign_le in E; [|done..].
      destruct (strictEq _ _) eqn:Es; intros [= <-]; simpl; [done|].
      split; [done|]. destruct (Number b) eqn:Eb; try done; simpl;
        split; try done; by apply strictEq_neq.
    + apply minusSign_gt in E; [|done..].
      destruct (strictEq _ _) eqn:Es; intros [= <-]; simpl; [done|].
      split; [done|]. destruct (Number a) eqn:Ea; try done; simpl;
        split; try done; by apply strictEq_neq.
  - apply String.eqb_eq in Hb as ->. change (Number "*") with NNaN.
    destruct (Number a) eqn:Ea; try done; simpl; by intros [= <-].
Qed.

Lemma uidRangeStringToQuery_wellFormed_witness :
  wellFormedUid (UidRange (NFin 5) (Some (NFin 10))).
Proof.
  apply (uidRangeStringToQuery_wellFormed (Some "10:5")). reflexivity.
Defined.

(** X2. The two bounds of a colon pair may come in either order: with
    two numbers around the colon, swapping them gives the same
    constraint. *)
Theorem uidRangeStringToQuery_swap a b :
  allDigits a = true → allDigits b = true →
  uidRangeStringToQuery (Some (a +:+ ":" +:+ b))
  = uidRangeStringToQuery (Some (b +:+ ":" +:+ a)).
Proof.
  intros Ha Hb.
  change (a +:+ ":" +:+ b) with (a +:+ String ":" b).
  change (b +:+ ":" +:+ a) with (b +:+ String ":" a).
  rewrite !uid_pair_parts;
    try done; try (by apply onlyDigits_no, allDigits_only);
    try (by rewrite ?Ha, ?Hb).
  pose proof (Number_allDigits a Ha) as Hna.
  pose proof (Number_allDigits b Hb) as Hnb.
  simpl. unfold starLast. simpl.
  rewrite (minusSign_antisym (Number a) (Number b)) by done.
  destruct (Z.compare_spec (minusSign (Number a) (Number b)) 0) as [E|E|E].
  - apply minusSign_0 in E as ->; [|done..].
    by destruct (_ <=? 0)%Z, (- _ <=? 0)%Z.
  - rewrite (proj2 (Z.leb_le _ _)) by lia. by rewrite (proj2 (Z.leb_gt _ _)) by lia.
  - rewrite (proj2 (Z.leb_gt _ _)) by lia. by rewrite (proj2 (Z.leb_le _ _)) by lia.
Qed.

Lemma uidRangeStringToQuery_swap_witness :
  uidRangeStringToQuery (Some "10:5") = uidRangeStringToQuery (Some "5:10").
Proof. apply (uidRangeStringToQuery_swap "10" "5"); reflexivity. Defined.

(** ** The fields of the compiled filter *)

Section CompilerCoverage.
Variable escapeRegexStr : string → string.
Local Abbreviation finishFilter := (finishFilter escapeRegexStr).
Local Abbreviation prepareSearchFilter := (prepareSearchFilter escapeRegexStr).
Local Abbreviation orBranches := (orBranches escapeRegexStr).

(** The compiled filter and the filter after the full-text step. *)
Lemma prepareSearchFilter_proj {B} (proj : Filter.t → B) db user p f q :
  ignores proj Filter.set_mailbox →
  prepareSearchFilter db user p = Ok (f, q) →
  ∃ f1,
    f = finishFilter p (orTermsOf p) (uidRangeStringToQuery (Payload.id p)) f1
          (stepQuery p (orTermsOf p) (Filter.init user) []).2
    ∧ proj f1 = proj (stepQuery p (orTermsOf p) (Filter.init user) []).1
    ∧ resolveMailbox db user p (stepQuery p (orTermsOf p) (Filter.init user) []).1 = Ok f1.
Proof.
  intros Hig (f0 & oq & f1 & Hq & Hm & -> & _)%prepareSearchFilter_Ok.
  fold (orTermsOf p) in *. rewrite Hq. simpl.
  exists f1. split; [done|]. split; [|done].
  by apply (resolveMailbox_keep proj db user p f0 f1).
Qed.

(** X3. The compiler returns exactly when the owner resolves and the
    mailbox scope does: the payload names a mailbox, or it does not ask
    for [searchable], or the listing fetch returns. *)
Theorem prepareSearchFilter_returns_iff db user p :
  (∃ r, prepareSearchFilter db user p = Ok r)
  ↔ (∃ u, users_findOne db user = Ok (Some u))
    ∧ (is_Some (Payload.mailbox p) ∨ Payload.searchable p = false
       ∨ ∃ ids, listing db user = Ok ids).
Proof.
  unfold prepareSearchFilter, listing, resolveMailbox.
  destruct (users_findOne db user) as [[u|]|e];
    [|split; [by intros [? ?]|by intros [[? ?] _]]..].
  destruct (stepQuery _ _ _ _) as [f0 oq].
  destruct (Payload.mailbox p) as [m|].
  { split; [intros _|by eexists]. split; [by eexists|]. left. by eexists. }
  destruct (Payload.searchable p).
  2:{ split; [intros _|by eexists]. split; [by eexists|]. by right; left. }
  destruct (useInQuery _); destruct (mailboxes_find db _) as [ids|e].
  1,3: split; [intros _|by eexists]; split; [by eexists|];
       right; right; by eexists.
  all: split; [by intros [? ?]|].
  all: intros [_ [[? ?]|[?|[? ?]]]]; done.
Qed.

(** X4. Every compiled filter is restricted to the owner it was
    compiled for, and the query returned beside it is the payload's
    [query] as it came. *)
Theorem filter_owner db user p f q :
  prepareSearchFilter db user p = Ok (f, q) →
  Filter.user f = user ∧ q = Payload.query p.
Proof.
  intros H.
  destruct (prepareSearchFilter_proj Filter.user _ _ _ _ _ ltac:(done) H)
    as (f1 & -> & H1 & _).
  apply prepareSearchFilter_Ok in H as (_ & _ & _ & _ & _ & _ & ->).
  split; [|done]. unfold finishFilter. keep.
  rewrite H1. by rewrite stepQuery_keep.
Qed.

(** X5. A payload that names a mailbox is scoped to that mailbox
    whatever the mailbox collection answers, also when its count and
    its listings fail and when [searchable] is set. *)
Theorem explicit_mailbox db user p u mailbox :
  Payload.mailbox p = Some mailbox →
  users_findOne db user = Ok (Some u) →
  ∃ f, prepareSearchFilter db user p = Ok (f, Payload.query p)
       ∧ Filter.mailbox f = Some (MbExact mailbox).
Proof.
  intros Hm Hu. eexists. split.
  - apply (prepareSearchFilter_returns escapeRegexStr db user p u); [done|].
    unfold resolveMailbox. by rewrite Hm.
  - by rewrite finishFilter_mailbox.
Qed.

(** X6. The id constraint is attached exactly when a mailbox scope
    was resolved and the parsed constraint is truthy: an [id] that is
    no range expression, and the id 0, constrain nothing. *)
Theorem uid_attached db user p f q :
  prepareSearchFilter db user p = Ok (f, q) →
  Filter.uid f =
    match Filter.mailbox f with
    | Some _ =>
        if uidTruthy (uidRangeStringToQuery (Payload.id p))
        then uidRangeStringToQuery (Payload.id p) else None
    | None => None
    end.
Proof.
  intros H.
  destruct (prepareSearchFilter_proj Filter.uid _ _ _ _ _ ltac:(done) H)
    as (f1 & -> & H1 & _).
  rewrite finishFilter_uid, finishFilter_mailbox. unfold stepUid.
  rewrite stepQuery_keep in H1 by done. simpl in H1.
  destruct (Filter.mailbox f1); [|done].
  destruct (uidRangeStringToQuery (Payload.id p)) as [uq|]; [|done].
  by destruct (uidTruthy (Some uq)).
Qed.

(** X7. [searchable: true] is in the compiled filter exactly when the
    payload has a full-text query, of its own or in its [or] bundle, or
    one of the flags [seen], [unseen] and [searchable]; otherwise the
    filter has no [searchable]. *)
Theorem searchable_forced db user p f q :
  prepareSearchFilter db user p = Ok (f, q) →
  Filter.searchable f =
    flagOf (strTruthy (Payload.query p) || strTruthy (OrTerms.query (orTermsOf p))
            || Payload.seen p || Payload.unseen p || Payload.searchable p).
Proof.
  intros H.
  destruct (prepareSearchFilter_proj Filter.searchable _ _ _ _ _ ltac:(done) H)
    as (f1 & -> & H1 & _).
  unfold finishFilter. keep.
  unfold stepSearchable, stepUnseen, stepSeen.
  destruct (Payload.searchable p); [by rewrite !orb_true_r|].
  destruct (Payload.unseen p); [by rewrite !orb_true_r|].
  destruct (Payload.seen p); [by rewrite !orb_true_r|].
  rewrite !orb_false_r. keep. rewrite H1. unfold stepQuery.
  by destruct (strTruthy (Payload.query p)), (strTruthy (OrTerms.query _)).
Qed.

Lemma orQuery_branches p :
  stepOrSubject escapeRegexStr (orTermsOf p)
    (stepOrTo escapeRegexStr (orTermsOf p)
       (stepOrFrom escapeRegexStr (orTermsOf p)
          (stepQuery p (orTermsOf p) (Filter.init 0%N) []).2))
  = orBranches p.
Proof.
  unfold orBranches, stepOrSubject, stepOrTo, stepOrFrom, stepQuery, termOf.
  cbv zeta.
  destruct (strTruthy (Payload.query p)), (strTruthy (OrTerms.query _)),
    (strTruthy (OrTerms.from _)), (strTruthy (OrTerms.to _)),
    (strTruthy (OrTerms.subject _)); simpl;
    try done; by destruct (splitWords _) as [|? [|??]].
Qed.

Lemma stepQuery_orQuery p o u u' :
  (stepQuery p o (Filter.init u) []).2 = (stepQuery p o (Filter.init u') []).2.
Proof. unfold stepQuery. by repeat case_match. Qed.

(** X8. The payload's own full-text query becomes [$text] and the
    one of its [or] bundle is then dropped; without it the bundle's
    query is the first branch of [$or].  [$or] holds the branches of
    the bundle in the order query, from, to, subject, and is absent
    when there is none. *)
Theorem query_and_or_branches db user p f q :
  prepareSearchFilter db user p = Ok (f, q) →
  Filter.text_ f = (if strTruthy (Payload.query p) then Payload.query p else None)
  ∧ Filter.or_ f = match orBranches p with [] => None | l => Some l end.
Proof.
  intros H. split.
  - destruct (prepareSearchFilter_proj Filter.text_ _ _ _ _ _ ltac:(done) H)
      as (f1 & -> & H1 & _).
    unfold finishFilter. keep. rewrite H1. unfold stepQuery.
    destruct (Payload.query p) as [[|c s]|]; simpl; try done;
      by destruct (strTruthy _).
  - destruct (prepareSearchFilter_proj Filter.or_ _ _ _ _ _ ltac:(done) H)
      as (f1 & -> & H1 & _).
    rewrite finishFilter_or, (stepQuery_orQuery p _ user 0%N), orQuery_branches.
    rewrite H1, stepQuery_keep by done. done.
Qed.

(** X9. The date bounds and the size bounds each become one range
    predicate with the bounds that are given, absent when neither is; a
    size bound of 0 counts as not given. *)
Theorem range_bounds db user p f q :
  prepareSearchFilter db user p = Ok (f, q) →
  Filter.idate f = boundsOf (Payload.datestart p) (Payload.dateend p)
  ∧ Filter.size f =
      boundsOf (sizeBound (Payload.minSize p)) (sizeBound (Payload.maxSize p)).
Proof.
  intros H. split.
  - destruct (prepareSearchFilter_proj Filter.idate _ _ _ _ _ ltac:(done) H)
      as (f1 & -> & H1 & _).
    rewrite stepQuery_keep in H1 by done. simpl in H1.
    unfold finishFilter. keep. unfold stepDates, withGte, withLte.
    destruct (Payload.datestart p), (Payload.dateend p); simpl; keep;
      by rewrite ?H1.
  - destruct (prepareSearchFilter_proj Filter.size _ _ _ _ _ ltac:(done) H)
      as (f1 & -> & H1 & _).
    rewrite stepQuery_keep in H1 by done. simpl in H1.
    unfold finishFilter. keep. unfold stepSizes, sizeBound, withGte, withLte.
    destruct (sizeTruthy (Payload.minSize p)) eqn:E1,
      (sizeTruthy (Payload.maxSize p)) eqn:E2; simpl; keep; rewrite ?H1; simpl;
      try done.
    + destruct (Payload.minSize p), (Payload.maxSize p); done.
    + destruct (Payload.minSize p); done.
    + destruct (Payload.maxSize p); done.
Qed.

(** X10. The thread, flagged and attachment predicates follow the
    payload alone, whether or not a mailbox scope is resolved. *)
Theorem independent_predicates db user p f q :
  prepareSearchFilter db user p = Ok (f, q) →
  Filter.thread f = Payload.thread p
  ∧ Filter.flagged f = flagOf (Payload.flagged p)
  ∧ Filter.ha f = flagOf (Payload.attachments p).
Proof.
  intros H. repeat split.
  - destruct (prepareSearchFilter_proj Filter.thread _ _ _ _ _ ltac:(done) H)
      as (f1 & -> & H1 & _).
    rewrite stepQuery_keep in H1 by done. simpl in H1.
    unfold finishFilter. keep. unfold stepThread.
    destruct (Payload.thread p); simpl; keep; by rewrite ?H1.
  - destruct (prepareSearchFilter_proj Filter.flagged _ _ _ _ _ ltac:(done) H)
      as (f1 & -> & H1 & _).
    rewrite stepQuery_keep in H1 by done. simpl in H1.
    unfold finishFilter. keep. unfold stepFlagged.
    destruct (Payload.flagged p); simpl; keep; by rewrite ?H1.
  - destruct (prepareSearchFilter_proj Filter.ha _ _ _ _ _ ltac:(done) H)
      as (f1 & -> & H1 & _).
    rewrite stepQuery_keep in H1 by done. simpl in H1.
    unfold finishFilter. keep. unfold stepAttachments.
    destruct (Payload.attachments p); simpl; keep; by rewrite ?H1.
Qed.
End CompilerCoverage.

(** ** The strings of the index *)

Lemma trimStart_clean s : startsClean s = true → trimStart s = s.
Proof. destruct s as [|c r]; simpl; [done|]. by destruct (isSpace c). Qed.

Lemma trimEnd_clean s : endsClean s = true → trimEnd s = s.
Proof.
  induction s as [|c r IH]; [done|]. cbn [endsClean trimEnd].
  destruct r as [|d r'].
  - simpl. by destruct (isSpace c).
  - intros H. by rewrite IH.
Qed.

Lemma startsClean_trimStart s : startsClean (trimStart s) = true.
Proof.
  induction s as [|c r IH]; simpl; [done|].
  destruct (isSpace c) eqn:E; [done|]. simpl. by rewrite E.
Qed.

Lemma endsClean_trimEnd s : endsClean (trimEnd s) = true.
Proof.
  induction s as [|c r IH]; [done|]. cbn [trimEnd].
  destruct (trimEnd r) as [|d r'] eqn:E.
  - destruct (isSpace c) eqn:Ec; simpl; [done|]. by rewrite Ec.
  - exact IH.
Qed.

Lemma startsClean_trimEnd s : startsClean s = true → startsClean (trimEnd s) = true.
Proof.
  destruct s as [|c r]; [done|]. cbn [trimEnd startsClean].
  destruct (trimEnd r); [|done].
  destruct (isSpace c) eqn:E; simpl; [done|]. by rewrite E.
Qed.

Lemma trim_clean s : startsClean s = true → endsClean s = true → trim s = s.
Proof.
  intros H1 H2. unfold trim. by rewrite (trimStart_clean s H1), trimEnd_clean.
Qed.

Lemma clean_trim s : startsClean (trim s) = true ∧ endsClean (trim s) = true.
Proof.
  unfold trim. split.
  - apply startsClean_trimEnd, startsClean_trimStart.
  - apply endsClean_trimEnd.
Qed.

Lemma trim_idem s : trim (trim s) = trim s.
Proof. destruct (clean_trim s). by apply trim_clean. Qed.

(** A lower-cased and trimmed string is normalized. *)
Lemma normalized_term s : normalized (trim (toLowerCase s)).
Proof. split; [apply term_lower|apply trim_idem]. Qed.

Lemma startsClean_app a b :
  nonEmpty a = true → startsClean a = true → startsClean (a +:+ b) = true.
Proof. by destruct a. Qed.

Lemma endsClean_app a b :
  nonEmpty b = true → endsClean b = true → endsClean (a +:+ b) = true.
Proof.
  intros Hb Hc. induction a as [|c r IH]; [done|].
  change (String c r +:+ b) with (String c (r +:+ b)). cbn [endsClean].
  destruct (r +:+ b) eqn:E; [|done].
  by destruct r, b.
Qed.

Lemma nonEmpty_join names :
  Forall (λ n, nonEmpty n = true) names → names ≠ [] →
  nonEmpty (join " " names) = true.
Proof.
  intros Hall Hne. destruct Hall as [|n [|m l] Hn Hl]; [done|done|].
  change (join " " (n :: m :: l)) with (n +:+ " " +:+ join " " (m :: l)).
  by destruct n.
Qed.

Lemma clean_join names :
  Forall (λ n, nonEmpty n = true ∧ startsClean n = true ∧ endsClean n = true) names →
  startsClean (join " " names) = true ∧ endsClean (join " " names) = true.
Proof.
  induction 1 as [|n l (Hn & Hs & He) Hl IH]; [done|].
  destruct l as [|m l]; [done|].
  change (join " " (n :: m :: l)) with (n +:+ " " +:+ join " " (m :: l)).
  split; [by apply startsClean_app|].
  assert (nonEmpty (join " " (m :: l)) = true) as Hj.
  { apply nonEmpty_join; [|done].
    eapply Forall_impl; [exact Hl|]. by intros ? [? _]. }
  apply endsClean_app; [done|].
  apply (endsClean_app " "); [done|]. by apply IH.
Qed.

Lemma nameOf_clean e n :
  nameOf e = Some n →
  nonEmpty n = true ∧ startsClean n = true ∧ endsClean n = true.
Proof.
  unfold nameOf. case_match; [|done]. cbv zeta.
  destruct (nonEmpty _) eqn:E; [|done]. intros [= <-].
  split; [done|]. apply clean_trim.
Qed.

Lemma nameField_normalized entries v :
  nameField (namesOf entries) = Some v → normalizedValue v.
Proof.
  intros H. destruct v as [l|s].
  { unfold nameField in H. by destruct (namesOf entries). }
  split; [by apply (nameField_lower entries)|].
  unfold nameField in H. destruct (namesOf entries) as [|n ns] eqn:E; [done|].
  injection H as <-.
  destruct (clean_join (n :: ns)) as [H1 H2]; [|by apply trim_clean].
  rewrite <- E. unfold namesOf. destruct entries; try by constructor.
  apply Forall_forall. intros x (e & _ & He)%list_elem_of_omap.
  by eapply nameOf_clean.
Qed.

Lemma addressField_normalized entries v :
  addressField (addressesOf entries) = Some v → normalizedValue v.
Proof.
  unfold addressField. destruct (addressesOf entries) as [|a l] eqn:E; [done|].
  intros [= <-]. simpl. rewrite <- E. unfold addressesOf.
  destruct entries; try by constructor.
  apply Forall_forall. intros x (e & _ & He)%list_elem_of_omap.
  unfold addressOf in He. case_match; [|done]. injection He as <-.
  apply normalized_term.
Qed.

(** X11. Every string of the index is in lower case and has no
    white space around it: each address, each joined name field and
    the subject. *)
Theorem index_normalized envelope subjectField search key v :
  buildSearchFromEnvelope envelope subjectField = Ok search →
  search !! key = Some v → normalizedValue v.
Proof.
  rewrite buildSearchFromEnvelope_spec. intros H Hk.
  assert (∀ v, extractLists envelope !! key = Some v → normalizedValue v) as Hl.
  { intros w. rewrite extractLists_lookup.
    repeat case_decide;
      eauto using nameField_normalized, addressField_normalized; done. }
  repeat case_match; simplify_eq; try (by apply Hl); try done.
  destruct (decide (key = "subject")) as [->|Hne].
  - rewrite lookup_insert_eq in Hk. injection Hk as <-. apply normalized_term.
  - rewrite lookup_insert_ne in Hk by done. by apply Hl.
Qed.

(** What a failure of the extractor says of its arguments. *)
Lemma buildSearchFromEnvelope_Throw envelope subjectField err :
  buildSearchFromEnvelope envelope subjectField = Throw err →
  err = notAFunction ∧ truthy envelope = true ∧ truthy subjectField = true
  ∧ ∀ t, subjectField ≠ JStr t.
Proof.
  rewrite buildSearchFromEnvelope_spec. unfold subjectOf.
  destruct (truthy envelope); [|done]. simpl.
  destruct (truthy subjectField) eqn:Es.
  - rewrite Es. destruct subjectField; try done; by intros [= <-].
  - intros H. by repeat case_match.
Qed.

(** X12. The extractor throws exactly on a truthy envelope with a
    truthy subject field that is no string, and then with the error of
    calling [toLowerCase] on it; a falsy envelope gives the empty index
    whatever the subject field is. *)
Theorem extractor_throws envelope subjectField :
  ((∃ err, buildSearchFromEnvelope envelope subjectField = Throw err)
   ↔ truthy envelope = true ∧ truthy subjectField = true
     ∧ ∀ t, subjectField ≠ JStr t)
  ∧ (∀ err, buildSearchFromEnvelope envelope subjectField = Throw err →
       err = notAFunction)
  ∧ (truthy envelope = false →
       buildSearchFromEnvelope envelope subjectField = Ok ∅).
Proof.
  rewrite buildSearchFromEnvelope_spec. unfold subjectOf.
  destruct (truthy envelope); simpl.
  2:{ split; [split; [by intros [? ?]|by intros [? _]]|by split]. }
  assert (∀ r : result SearchIndex,
            (∀ err, r ≠ Throw err) →
            ((∃ err, r = Throw err) ↔ False) ∧ (∀ err, r = Throw err → err = notAFunction))
    as Hok.
  { intros r Hr. split; [split; [by intros [err ?%Hr]|done]|by intros err ?%Hr]. }
  destruct (truthy subjectField) eqn:Es.
  - rewrite Es.
    destruct subjectField as [| |b|n|s|l]; try done;
      try (split; [split; [by repeat split|by eexists]
                  |split; [by intros ? [= <-]|done]]).
    split; [|split; [done|done]].
    split; [by intros [? ?]|]. intros (_ & _ & Hn). by destruct (Hn s).
  - destruct (Hok (if truthy (JStr (toStr (if truthy (index envelope 1)
                                          then index envelope 1 else JStr "")))
                   then Ok (<["subject" := SStr (trim (toLowerCase
                          (toStr (if truthy (index envelope 1)
                                  then index envelope 1 else JStr ""))))]>
                        (extractLists envelope))
                   else Ok (extractLists envelope))) as [H1 H2].
    { intros err. by case_match. }
    split; [|split; [exact H2|done]].
    rewrite H1. split; [done|]. by intros (_ & ? & _).
Qed.

Lemma extractLists_subject envelope : extractLists envelope !! "subject" = None.
Proof. rewrite extractLists_lookup. by repeat case_decide. Qed.

(** X13. On a truthy envelope, a subject field that is a non-empty
    string is indexed, lower-cased and trimmed, whatever the envelope's
    own subject is; with a falsy subject field the envelope's subject,
    turned into a string, is indexed instead, and the index has no
    subject when that string is empty. *)
Theorem subject_field :
  (∀ envelope t,
     truthy envelope = true → nonEmpty t = true →
     ∃ search,
       buildSearchFromEnvelope envelope (JStr t) = Ok search
       ∧ search !! "subject" = Some (SStr (trim (toLowerCase t))))
  ∧ (∀ envelope subjectField,
       truthy envelope = true → truthy subjectField = false →
       ∃ search,
         buildSearchFromEnvelope envelope subjectField = Ok search
         ∧ search !! "subject" =
             if truthy (index envelope 1) && nonEmpty (toStr (index envelope 1))
             then Some (SStr (trim (toLowerCase (toStr (index envelope 1)))))
             else None).
Proof.
  split.
  - intros envelope t He Ht. rewrite buildSearchFromEnvelope_spec, He.
    unfold subjectOf. simpl. rewrite Ht. simpl. rewrite Ht.
    eexists. split; [done|]. by rewrite lookup_insert_eq.
  - intros envelope sf He Hs. rewrite buildSearchFromEnvelope_spec, He.
    unfold subjectOf. rewrite Hs. simpl.
    destruct (truthy (index envelope 1)); simpl.
    + destruct (nonEmpty (toStr (index envelope 1))); eexists; (split; [done|]);
        [by rewrite lookup_insert_eq|apply extractLists_subject].
    + eexists. split; [done|]. apply extractLists_subject.
Qed.

Lemma subject_field_witness :
  ∃ search,
    buildSearchFromEnvelope (JArr [JNull; JStr "Raw"; JArr [janeDoe]]) (JStr " Hello ")
      = Ok search
    ∧ search !! "subject" = Some (SStr "hello").
Proof.
  apply (proj1 subject_field (JArr [JNull; JStr "Raw"; JArr [janeDoe]]) " Hello ");
    reflexivity.
Defined.

(** X14. Only the subject and the from, to and cc lists of an
    envelope reach the index: changing any other position, such as the
    sender, reply-to or bcc list, changes nothing. *)
Theorem other_positions_ignored items subjectField (k : nat) v :
  k ≠ 1 → k ≠ 2 → k ≠ 5 → k ≠ 6 →
  buildSearchFromEnvelope (JArr (<[k := v]> items)) subjectField
  = buildSearchFromEnvelope (JArr items) subjectField.
Proof.
  intros H1 H2 H5 H6. rewrite !buildSearchFromEnvelope_spec.
  unfold subjectOf, extractLists, index.
  by rewrite !list_lookup_insert_ne by done.
Qed.

Lemma other_positions_ignored_witness :
  buildSearchFromEnvelope
    (JArr (<[7 := JArr [bob]]> [JNull; JStr "Hi"; JArr [janeDoe];
                                 JNull; JNull; JNull; JNull; JNull]))
    JUndefined
  = buildSearchFromEnvelope
      (JArr [JNull; JStr "Hi"; JArr [janeDoe]; JNull; JNull; JNull; JNull; JNull])
      JUndefined.
Proof. apply other_positions_ignored; lia. Defined.

Lemma index_normalized_witness :
  normalizedValue (SStr "jane doe bob").
Proof.
  apply (index_normalized (envelopeFrom [janeDoe; bob]) JUndefined
           {[ "from" := SList ["jane@example.com"; "bob@example.org"];
              "fromName" := SStr "jane doe bob" ]} "fromName");
    reflexivity.
Defined.

(** ** The result of a run *)

Lemma partlyMigrated_refl c : partlyMigrated c c.
Proof. intros id. by left. Qed.

Lemma migrated_pending doc :
  Message.search (migrated doc) = None → migrated doc = doc.
Proof.
  unfold migrated. destruct (Message.search doc) eqn:E; [done|].
  by destruct (buildSearchFromEnvelope _ _).
Qed.

Lemma migrated_indexed doc :
  is_Some (Message.search doc) → migrated doc = doc.
Proof. unfold migrated. by intros [? ->]. Qed.

(** A document without a [search] field is still the original. *)
Lemma partlyMigrated_pending c0 c id doc :
  partlyMigrated c0 c → c !! id = Some doc → Message.search doc = None →
  c0 !! id = Some doc.
Proof.
  intros H Hc Hs. destruct (H id) as [Hid|Hid]; rewrite Hc in Hid; [done|].
  destruct (c0 !! id) as [doc0|]; [|done]. injection Hid as ->.
  by rewrite migrated_pending.
Qed.

(** Each staged update holds the extractor's output for its document. *)
Lemma buildOps_spec batch ops :
  buildOps batch = Ok ops →
  Forall2 (λ kd op,
             op.1 = kd.1
             ∧ buildSearchFromEnvelope (Message.envelope kd.2) (Message.subject kd.2)
               = Ok op.2) batch ops.
Proof.
  revert ops. induction batch as [|kd rest IH]; intros ops; simpl.
  - intros [= <-]. constructor.
  - destruct (buildSearchFromEnvelope _ _) as [s|] eqn:Hs; [|done].
    destruct (buildOps rest) as [ops'|]; [|done].
    intros [= <-]. constructor; [done|]. by apply IH.
Qed.

Lemma set_search_twice s s' doc :
  Message.set_search s (Message.set_search s' doc) = Message.set_search s doc.
Proof. done. Qed.

Lemma applyOps_same ops id s doc :
  (∀ op, op ∈ ops → op.1 = id → op.2 = s) → id ∈ ops.*1 →
  applyOps ops id doc = Message.set_search s doc.
Proof.
  unfold applyOps. intros Hs Hin.
  assert (∀ d, d = doc ∨ d = Message.set_search s doc →
            foldl (λ d op, if decide (op.1 = id) then Message.set_search op.2 d else d)
              d ops = Message.set_search s doc ∨
            ((id ∉ ops.*1) ∧ foldl (λ d op, if decide (op.1 = id)
                                           then Message.set_search op.2 d else d) d ops = d))
    as Hgen.
  { clear Hin. induction ops as [|op ops IH]; intros d Hd; simpl.
    - right. split; [apply not_elem_of_nil|done].
    - assert (∀ op', op' ∈ ops → op'.1 = id → op'.2 = s) as Hs'
        by (intros op' ?; apply Hs; by right).
      destruct (decide (op.1 = id)) as [Heq|Hne].
      + rewrite (Hs op) by (done || by left).
        destruct (IH Hs' (Message.set_search s d)) as [->|[_ ->]].
        * right. by destruct Hd as [->| ->].
        * by left.
        * left. by destruct Hd as [->| ->].
      + destruct (IH Hs' d Hd) as [->|[Hn ->]]; [by left|].
        right. split; [|done]. simpl. by apply not_elem_of_cons. }
  destruct (Hgen doc) as [H|[Hn _]]; [by left|done|done].
Qed.

(** The keys of a batch are distinct. *)
Lemma findBatch_NoDup q c : NoDup (findBatch q c).*1.
Proof.
  rewrite findBatch_sorted.
  apply (sublist_NoDup _ (merge_sort ascending (selected q c)).*1).
  - rewrite merge_sort_Permutation. unfold selected.
    apply (sublist_NoDup _ (map_to_list c).*1); [apply NoDup_fst_map_to_list|].
    apply fmap_sublist, sublist_filter.
  - apply fmap_sublist, sublist_take.
Qed.

(** What the bulk write of a batch makes of the store. *)
Lemma batch_written q c bulkOps id :
  buildOps (findBatch q c) = Ok bulkOps →
  (bulkWrite bulkOps c).1 !! id =
    if decide (id ∈ (findBatch q c).*1) then migrated <$> c !! id else c !! id.
Proof.
  intros Hops. case_decide as Hin.
  - apply list_elem_of_fmap in Hin as (kd & -> & Hkd).
    pose proof (elem_of_findBatch q c kd Hkd) as [Hc Hm].
    apply matches_spec in Hm as (Hs & _).
    rewrite bulkWrite_lookup, Hc. simpl. f_equal.
    pose proof (buildOps_spec _ _ Hops) as Hall.
    apply list_elem_of_lookup in Hkd as [i Hi].
    destruct (Forall2_lookup_l _ _ _ _ _ Hall Hi) as (op & Hop & Hid & Hb).
    unfold migrated. rewrite Hs, Hb.
    apply applyOps_same.
    + intros op' Hop' Hid'.
      apply list_elem_of_lookup in Hop' as [j Hj].
      destruct (Forall2_lookup_r _ _ _ _ _ Hall Hj) as (kd' & Hkd' & Hid'' & Hb').
      assert (i = j) as <-.
      { pose proof (findBatch_NoDup q c) as Hnd.
        eapply (NoDup_lookup _ _ _ kd.1 Hnd);
          rewrite list_lookup_fmap; [by rewrite Hi|rewrite Hkd'; simpl; congruence]. }
      congruence.
    + rewrite <- Hid. apply list_elem_of_fmap_2.
      by eapply list_elem_of_lookup_2.
  - apply bulkWrite_other. by rewrite (buildOps_ids _ _ Hops).
Qed.

Lemma loop_quiet_partly c0 m fuel st :
  partlyMigrated c0 (ls_store st) →
  partlyMigrated c0 (store (loop quiet m fuel st)).
Proof.
  revert st. induction fuel as [|fuel IH]; intros st Hst; [done|].
  rewrite loop_quiet_step. cbv zeta.
  destruct (last (findBatch _ _)) as [lastDoc|]; [|done].
  destruct (buildOps _) as [bulkOps|err] eqn:Hops; [|done].
  apply IH. simpl. intros id. rewrite (batch_written _ _ _ _ Hops).
  case_decide as Hin; [|apply Hst].
  apply list_elem_of_fmap in Hin as (kd & -> & Hkd).
  apply elem_of_findBatch in Hkd as [Hc Hm].
  apply matches_spec in Hm as (Hs & _).
  right. by rewrite (partlyMigrated_pending c0 _ _ _ Hst Hc Hs), Hc.
Qed.

Lemma addSearchFields_partly fuel c :
  partlyMigrated c (store (addSearchFields quiet fuel c)).
Proof.
  unfold addSearchFields. change (quiet 1 (quiet 0 c)) with c.
  change (quiet 0 c) with c.
  destruct (findMax c); [apply partlyMigrated_refl|].
  destruct (Nat.eqb _ 0); [apply partlyMigrated_refl|].
  apply loop_quiet_partly, partlyMigrated_refl.
Qed.

(** X15. While no one else writes to the store, a run, however it
    ends, adds and removes no document and leaves each one as it was or
    with the [search] field that the extractor builds from its own
    envelope and subject; a document that had a [search] field keeps it
    as it was. *)
Theorem migration_partial fuel c id :
  let c1 := store (addSearchFields quiet fuel c) in
  (c1 !! id = c !! id ∨ c1 !! id = migrated <$> c !! id)
  ∧ (∀ doc, c !! id = Some doc → is_Some (Message.search doc) →
       c1 !! id = Some doc).
Proof.
  intros c1. pose proof (addSearchFields_partly fuel c id) as H.
  split; [done|]. intros doc Hc Hs.
  destruct H as [H|H]; fold c1 in H; rewrite H, Hc; [done|].
  simpl. by rewrite migrated_indexed.
Qed.

(** X16. While no one else writes to the store, a run that ends
    leaves exactly the store in which every document that had no
    [search] field has the one the extractor builds for it, and every
    other document is as it was. *)
Theorem migration_result fuel c :
  status (addSearchFields quiet fuel c) = Done →
  store (addSearchFields quiet fuel c) = migrated <$> c.
Proof.
  intros Hdone. apply map_eq. intros id. rewrite lookup_fmap.
  pose proof (addSearchFields_done fuel c Hdone) as Hall.
  destruct (addSearchFields_partly fuel c id) as [H|H]; [|done].
  rewrite H. destruct (c !! id) as [doc|] eqn:Hc; [|done]. simpl. f_equal.
  symmetry. apply migrated_indexed. by eapply Hall.
Qed.

Lemma migration_result_witness :
  store (addSearchFields quiet 4 sampleMessages) = migrated <$> sampleMessages.
Proof. apply migration_result. vm_compute. reflexivity. Defined.

(** ** The count of processed documents *)

Lemma bulkWrite_count ops c n :
  NoDup ops.*1 →
  (∀ op, op ∈ ops → ∃ doc, c !! op.1 = Some doc ∧ Message.search doc = None) →
  (foldl (λ acc op, let '(c', k) := updateOne op acc.1 in (c', acc.2 + k)) (c, n) ops).2
  = n + length ops.
Proof.
  revert c n. induction ops as [|op ops IH]; intros c n Hnd Hall; simpl; [lia|].
  apply NoDup_cons in Hnd as [Hnotin Hnd].
  destruct (Hall op) as (doc & Hc & Hs); [by left|].
  unfold updateOne at 2. rewrite Hc.
  rewrite decide_False by (by rewrite Hs). simpl.
  rewrite IH; [lia|done|].
  intros op' Hop'. destruct (Hall op') as (doc' & Hc' & Hs'); [by right|].
  exists doc'. split; [|done]. rewrite lookup_insert_ne; [done|].
  intros Heq. apply Hnotin. rewrite Heq. by apply list_elem_of_fmap_2.
Qed.

Lemma batch_modified q c bulkOps :
  buildOps (findBatch q c) = Ok bulkOps →
  (bulkWrite bulkOps c).2 = length (findBatch q c).
Proof.
  intros Hops. unfold bulkWrite. rewrite bulkWrite_count; simpl.
  - by rewrite <- (length_fmap fst), (buildOps_ids _ _ Hops), length_fmap.
  - rewrite (buildOps_ids _ _ Hops). apply findBatch_NoDup.
  - intros op Hop. apply (list_elem_of_fmap_2 fst) in Hop.
    rewrite (buildOps_ids _ _ Hops) in Hop.
    apply list_elem_of_fmap in Hop as (kd & -> & Hkd).
    apply elem_of_findBatch in Hkd as [Hc Hm].
    apply matches_spec in Hm as (Hs & _). by exists kd.2.
Qed.

Lemma batch_pending q c bulkOps :
  buildOps (findBatch q c) = Ok bulkOps →
  size (pending (bulkWrite bulkOps c).1) + length (findBatch q c) = size (pending c).
Proof.
  intros Hops.
  assert (pending (bulkWrite bulkOps c).1
          = pending c ∖ list_to_set (findBatch q c).*1) as ->.
  { apply set_eq. intros id.
    rewrite elem_of_difference, elem_of_list_to_set, !elem_of_pending.
    rewrite (batch_written _ _ _ _ Hops). case_decide as Hin.
    - split; [|by intros [_ ?]]. intros (doc' & Hd & Hs).
      apply list_elem_of_fmap in Hin as (kd & -> & Hkd).
      pose proof (elem_of_findBatch q c kd Hkd) as [Hc Hm].
      apply matches_spec in Hm as (Hs0 & _).
      rewrite Hc in Hd. simpl in Hd. injection Hd as <-.
      pose proof (buildOps_spec _ _ Hops) as Hall.
      apply list_elem_of_lookup in Hkd as [i Hi].
      destruct (Forall2_lookup_l _ _ _ _ _ Hall Hi) as (op & _ & _ & Hb).
      exfalso. unfold migrated in Hs. by rewrite Hs0, Hb in Hs.
    - split; [by intros ?|by intros [? _]]. }
  assert ((list_to_set (findBatch q c).*1 : gset N) ⊆ pending c) as Hsub.
  { intros id (kd & -> & Hkd)%elem_of_list_to_set%list_elem_of_fmap.
    apply elem_of_findBatch in Hkd as [Hc Hm].
    apply matches_spec in Hm as (Hs & _). apply elem_of_pending. by exists kd.2. }
  assert (size (list_to_set (findBatch q c).*1 : gset N) = length (findBatch q c))
    as Hsz.
  { rewrite size_list_to_set by apply findBatch_NoDup. apply length_fmap. }
  rewrite size_difference by done. apply subseteq_size in Hsub. lia.
Qed.

Lemma allIndexed_pending c : allIndexed c → pending c = ∅.
Proof.
  intros Hall. apply set_eq. intros id. rewrite elem_of_pending.
  split; [|by intros ?%not_elem_of_empty].
  intros (doc & Hc & Hs). apply Hall in Hc. rewrite Hs in Hc. by destruct Hc.
Qed.

Lemma loop_quiet_count m fuel st :
  boundedBy m (ls_store st) →
  pendingBeyond m (lastId st) (ls_store st) →
  status (loop quiet m fuel st) = Done →
  processedCount (loop quiet m fuel st)
  = ls_processedCount st + size (pending (ls_store st)).
Proof.
  revert st. induction fuel as [|fuel IH]; intros st Hb Hinv Hdone; [done|].
  pose proof (loop_quiet_done m (S fuel) st Hb Hinv Hdone) as Hall.
  rewrite loop_quiet_step in Hdone, Hall |- *. cbv zeta in *.
  destruct (last (findBatch _ _)) as [lastDoc|] eqn:Hlast.
  - destruct (buildOps _) as [bulkOps|err] eqn:Hops; [|done].
    rewrite IH; simpl; [| |by apply (batch_progress m st lastDoc bulkOps)|done].
    + rewrite (batch_modified _ _ _ Hops).
      pose proof (batch_pending _ _ _ Hops). lia.
    + intros id Hid%bulkWrite_dom. by apply Hb.
  - simpl in *. rewrite (allIndexed_pending _ Hall), size_empty. lia.
Qed.

(** X17. While no one else writes to the store, a run that ends
    reports as processed exactly the number of documents that had no
    [search] field: none is skipped and none is counted twice. *)
Theorem processed_count fuel c :
  status (addSearchFields quiet fuel c) = Done →
  processedCount (addSearchFields quiet fuel c) = size (pending c).
Proof.
  intros Hdone. pose proof (addSearchFields_done fuel c Hdone) as Hall.
  revert Hdone Hall. unfold addSearchFields.
  change (quiet 1 (quiet 0 c)) with c. change (quiet 0 c) with c.
  destruct (findMax c) as [|maxIdDoc rest] eqn:Hmax.
  { intros _ Hall. simpl in *. by rewrite (allIndexed_pending _ Hall), size_empty. }
  destruct (Nat.eqb _ 0).
  { intros _ Hall. simpl in *. by rewrite (allIndexed_pending _ Hall), size_empty. }
  intros Hdone _. rewrite loop_quiet_count; [done| |done|done].
  intros id Hid. by destruct (findMax_cons c maxIdDoc rest id Hmax Hid).
Qed.

Lemma processed_count_witness :
  processedCount (addSearchFields quiet 4 sampleMessages) = size (pending sampleMessages).
Proof. apply processed_count. vm_compute. reflexivity. Defined.

(** ** Batches *)

Lemma StronglySorted_strict (l : list (N * Message.t)) :
  StronglySorted ascending l → NoDup l.*1 →
  StronglySorted (λ x y, (x.1 < y.1)%N) l.
Proof.
  induction 1 as [|x l Hs IH Hall]; intros Hnd; [constructor|].
  simpl in Hnd. apply NoDup_cons in Hnd as [Hx Hnd].
  constructor; [by apply IH|].
  apply Forall_forall. intros y Hy. rewrite Forall_forall in Hall.
  pose proof (Hall y Hy) as Hle. unfold ascending in Hle.
  assert (x.1 ≠ y.1); [|lia].
  intros Heq. apply Hx. rewrite Heq. by apply list_elem_of_fmap_2.
Qed.

Lemma findBatch_shape q c : batchShape (EvFetch q (findBatch q c)).
Proof.
  split; [|split].
  - rewrite findBatch_sorted. rewrite length_take. lia.
  - apply StronglySorted_strict; [|apply findBatch_NoDup].
    rewrite findBatch_sorted.
    pose proof (StronglySorted_merge_sort ascending (selected q c)) as Hs.
    rewrite <- (take_drop BATCH_SIZE) in Hs. by apply StronglySorted_app_1_l in Hs.
  - apply Forall_forall. intros kd [_ Hm]%elem_of_findBatch.
    by apply matches_spec in Hm.
Qed.

Lemma fetched_app evs evs' : fetched (evs ++ evs') = fetched evs ++ fetched evs'.
Proof. apply bind_app. Qed.

Lemma fetched_snoc evs e : fetched (evs ++ [e]) = fetched evs ++ batchOf e.
Proof. rewrite fetched_app. unfold fetched at 2. simpl. by rewrite app_nil_r. Qed.

Lemma pagedBy_snoc m evs e :
  pagedBy m evs →
  (∀ q batch, e = EvFetch q batch →
     q = {| q_lte := m; q_gt := cursorOf evs |}
     ∧ batchShape (EvFetch q batch)
     ∧ StronglySorted (λ x y, (x.1 < y.1)%N) (fetched evs ++ batch)) →
  pagedBy m (evs ++ [e]).
Proof.
  intros Hevs He pre q batch post.
  induction post as [|z post' _] using rev_ind.
  - intros [-> ->]%app_inj_tail. by apply He.
  - rewrite app_comm_cons, app_assoc. intros [-> _]%app_inj_tail.
    by eapply Hevs.
Qed.

Lemma ascending_app (l l' : list (N * Message.t)) :
  StronglySorted (λ x y, (x.1 < y.1)%N) l →
  StronglySorted (λ x y, (x.1 < y.1)%N) l' →
  (∀ z, last l = Some z → Forall (λ y, (z.1 < y.1)%N) l') →
  StronglySorted (λ x y, (x.1 < y.1)%N) (l ++ l').
Proof.
  intros Hl Hl'. induction Hl as [|x l Hs IH Hall]; intros Hlast; [done|].
  simpl. constructor.
  - apply IH. intros z Hz. apply Hlast.
    destruct l; [done|]. by rewrite last_cons, Hz.
  - apply Forall_app. split; [done|].
    destruct (last l) as [z|] eqn:Hz.
    + assert (x.1 < z.1)%N as Hxz.
      { rewrite Forall_forall in Hall. by apply Hall, last_Some_elem_of. }
      eapply Forall_impl; [apply (Hlast z)|].
      * by rewrite last_cons, Hz.
      * intros y Hy. simpl in Hy. lia.
    + apply last_None in Hz as ->. by apply Hlast.
Qed.

Lemma loop_pagedBy env m fuel st :
  pagedBy m (ls_events st) →
  lastId st = cursorOf (ls_events st) →
  StronglySorted (λ x y, (x.1 < y.1)%N) (fetched (ls_events st)) →
  pagedBy m (events (loop env m fuel st)).
Proof.
  revert st. induction fuel as [|fuel IH]; intros st Hp Hc Hs; simpl; [done|].
  set (q := {| q_lte := m; q_gt := lastId st |}).
  set (c := env (ls_tick st) (ls_store st)).
  pose proof (findBatch_shape q c) as Hshape.
  assert (StronglySorted (λ x y, (x.1 < y.1)%N)
            (fetched (ls_events st) ++ findBatch q c)) as Hs'.
  { apply ascending_app; [done|apply Hshape|].
    intros z Hz. destruct Hshape as (_ & _ & Hall).
    eapply Forall_impl; [exact Hall|]. intros y (_ & _ & Hy).
    simpl in Hy. rewrite Hc in Hy. unfold cursorOf in Hy. by rewrite Hz in Hy. }
  assert (pagedBy m (ls_events st ++ [EvFetch q (findBatch q c)])) as Hp'.
  { apply pagedBy_snoc; [done|]. intros q' batch' [= <- <-].
    split; [|done]. unfold q. by rewrite Hc. }
  destruct (last (findBatch q c)) as [lastDoc|] eqn:Hlast; [|done].
  destruct (buildOps (findBatch q c)) as [bulkOps|err]; [|done].
  destruct (bulkWrite bulkOps _) as [c2 modifiedCount].
  apply IH; simpl.
  - by apply pagedBy_snoc.
  - unfold cursorOf. rewrite !fetched_snoc. simpl. rewrite app_nil_r.
    destruct (findBatch q c) as [|d b] using rev_ind; [done|].
    rewrite last_snoc in Hlast. injection Hlast as <-.
    by rewrite app_assoc, last_snoc.
  - rewrite !fetched_snoc. simpl. by rewrite app_nil_r.
Qed.

Lemma findMax_stored c maxIdDoc rest :
  findMax c = maxIdDoc :: rest → c !! maxIdDoc.1 = Some maxIdDoc.2.
Proof.
  unfold findMax. intros H.
  pose proof (merge_sort_Permutation descending (map_to_list c)) as Hp.
  destruct (merge_sort descending (map_to_list c)) as [|d l]; [done|].
  simpl in H. rewrite take_0 in H. injection H as <- <-.
  apply elem_of_map_to_list. rewrite <- Hp. destruct d. by left.
Qed.

(** X18. Whatever other clients do to the store, the fetches of a
    run page through it by cursor below the maximum read at the start:
    every fetch is bounded by the largest identifier that the store
    held when the run read it, and starts beyond the last document
    fetched before it, or has no lower bound when there is none; its
    batch has at most 1000 documents, none of them with a [search]
    field, each between the cursor and the bound; and the documents
    fetched up to and with it are in strictly ascending order of
    identifier, so that no document is fetched twice. *)
Theorem batches_shape env fuel c pre q batch post :
  events (addSearchFields env fuel c) = pre ++ EvFetch q batch :: post →
  (is_Some (env 0 c !! q_lte q) ∧ boundedBy (q_lte q) (env 0 c))
  ∧ q_gt q = cursorOf pre
  ∧ batchShape (EvFetch q batch)
  ∧ StronglySorted (λ x y, (x.1 < y.1)%N) (fetched pre ++ batch).
Proof.
  unfold addSearchFields.
  destruct (findMax (env 0 c)) as [|maxIdDoc ?] eqn:Hmax.
  { destruct pre as [|? [|??]]; discriminate. }
  set (m := maxIdDoc.1).
  destruct (Nat.eqb _ 0).
  { destruct pre as [|? [|? [|??]]]; discriminate. }
  intros Hev. eapply loop_pagedBy in Hev as (-> & Hshape & Hsorted); simpl.
  - split; [|done]. simpl. split.
    + eexists. by eapply findMax_stored.
    + intros id Hid. by eapply findMax_cons.
  - intros pre' q' batch' post' H. destruct pre' as [|? [|? [|??]]]; discriminate.
  - done.
  - constructor.
Qed.

Lemma batches_shape_witness :
  (is_Some (sampleMessages !! 3%N) ∧ boundedBy 3 sampleMessages)
  ∧ None = cursorOf [EvReadMax (Some 3%N); EvCount {| q_lte := 3; q_gt := None |} 2]
  ∧ batchShape (EvFetch {| q_lte := 3; q_gt := None |}
                  (findBatch {| q_lte := 3; q_gt := None |} sampleMessages))
  ∧ StronglySorted (λ x y, (x.1 < y.1)%N)
      (fetched [EvReadMax (Some 3%N); EvCount {| q_lte := 3; q_gt := None |} 2]
       ++ findBatch {| q_lte := 3; q_gt := None |} sampleMessages).
Proof.
  apply (batches_shape quiet 3 sampleMessages
           [EvReadMax (Some 3%N); EvCount {| q_lte := 3; q_gt := None |} 2]
           {| q_lte := 3; q_gt := None |}
           (findBatch {| q_lte := 3; q_gt := None |} sampleMessages)
           (drop 3 (events (addSearchFields quiet 3 sampleMessages)))).
  vm_compute. reflexivity.
Defined.

(** ** Termination and failure *)

Lemma loop_ends env m fuel st :
  cursorRoom m (lastId st) < fuel → status (loop env m fuel st) ≠ OutOfFuel.
Proof.
  revert st. induction fuel as [|fuel IH]; intros st Hroom; [lia|]. simpl.
  set (q := {| q_lte := m; q_gt := lastId st |}).
  set (c := env (ls_tick st) (ls_store st)).
  destruct (last (findBatch q c)) as [lastDoc|] eqn:Hlast; [|done].
  destruct (buildOps (findBatch q c)) as [bulkOps|err]; [|done].
  destruct (bulkWrite bulkOps _) as [c2 modifiedCount].
  apply IH. simpl.
  apply last_Some_elem_of, elem_of_findBatch in Hlast as [_ Hm].
  apply matches_spec in Hm as (_ & Hle & Hgt). simpl in Hle, Hgt.
  unfold cursorRoom in Hroom. destruct (lastId st); lia.
Qed.

(** X19. Whatever other clients do to the store, also when they keep
    inserting documents, the loop of a run ends: every batch moves the
    cursor up, and the cursor stays at or below the maximum identifier
    read at the start, so fuel beyond that maximum is never used up. *)
Theorem migration_ends env fuel c :
  Forall (λ maxIdDoc, S (N.to_nat maxIdDoc.1) < fuel) (findMax (env 0 c)) →
  status (addSearchFields env fuel c) ≠ OutOfFuel.
Proof.
  intros Hfuel. unfold addSearchFields.
  destruct (findMax (env 0 c)) as [|maxIdDoc ?]; [done|].
  destruct (Nat.eqb _ 0); [done|].
  apply loop_ends. simpl. by apply Forall_cons in Hfuel as [? _].
Qed.

Lemma buildSearchFromEnvelope_unextractable doc :
  unextractable doc →
  buildSearchFromEnvelope (Message.envelope doc) (Message.subject doc)
    = Throw notAFunction.
Proof.
  intros (He & Hs & Hn). rewrite buildSearchFromEnvelope_spec, He. simpl.
  unfold subjectOf. rewrite Hs, Hs.
  destruct (Message.subject doc); try done. by destruct (Hn s).
Qed.

Lemma buildOps_unextractable batch :
  Exists (λ kd, unextractable kd.2) batch → buildOps batch = Throw notAFunction.
Proof.
  induction 1 as [kd rest Hkd|kd rest _ IH]; simpl.
  - by rewrite (buildSearchFromEnvelope_unextractable _ Hkd).
  - destruct (buildSearchFromEnvelope _ _) as [s|e] eqn:Hb; [by rewrite IH|].
    by apply buildSearchFromEnvelope_Throw in Hb as [-> _].
Qed.

Lemma loop_throws env m fuel st q batch err :
  Forall extractable (ls_events st) →
  EvFetch q batch ∈ events (loop env m fuel st) →
  buildOps batch = Throw err →
  status (loop env m fuel st) = Aborted err
  ∧ last (events (loop env m fuel st)) = Some (EvFetch q batch)
  ∧ Forall (λ kd, store (loop env m fuel st) !! kd.1 = Some kd.2) batch.
Proof.
  revert st. induction fuel as [|fuel IH]; intros st Hst; simpl.
  { intros Hin Hops. rewrite Forall_forall in Hst.
    destruct (Hst _ Hin) as [ops Hok]. congruence. }
  set (q0 := {| q_lte := m; q_gt := lastId st |}).
  set (c := env (ls_tick st) (ls_store st)).
  assert (EvFetch q batch ∈ ls_events st ++ [EvFetch q0 (findBatch q0 c)] →
          buildOps batch = Throw err → q = q0 ∧ batch = findBatch q0 c) as Hlast.
  { intros [Hin|Hin%list_elem_of_singleton]%elem_of_app Hops.
    - rewrite Forall_forall in Hst. destruct (Hst _ Hin) as [ops Hok]. congruence.
    - by injection Hin as -> ->. }
  destruct (last (findBatch q0 c)) as [lastDoc|] eqn:Hl.
  - destruct (buildOps (findBatch q0 c)) as [bulkOps|err'] eqn:Hops0.
    + destruct (bulkWrite bulkOps _) as [c2 modifiedCount]. apply IH. simpl.
      rewrite !Forall_app, !Forall_singleton. simpl. eauto.
    + simpl. intros Hin Hops. destruct (Hlast Hin Hops) as [-> ->].
      rewrite last_snoc. split; [congruence|]. split; [done|].
      apply Forall_forall. by intros kd [? _]%elem_of_findBatch.
  - simpl. intros Hin Hops. destruct (Hlast Hin Hops) as [-> ->].
    apply last_None in Hl. rewrite Hl in Hops. done.
Qed.

(** X20. A fetched batch that holds a document on which the extractor
    throws, one with a truthy envelope and a truthy subject field that
    is no string, ends the run with that error before anything of the
    batch is written: the fetch is the last storage operation of the
    run, and every document of the batch, also one that comes before
    the offending one, is stored as it was fetched. *)
Theorem aborted_batch env fuel c q batch :
  EvFetch q batch ∈ events (addSearchFields env fuel c) →
  Exists (λ kd, unextractable kd.2) batch →
  status (addSearchFields env fuel c) = Aborted notAFunction
  ∧ last (events (addSearchFields env fuel c)) = Some (EvFetch q batch)
  ∧ Forall (λ kd, store (addSearchFields env fuel c) !! kd.1 = Some kd.2) batch.
Proof.
  intros Hin Hops%buildOps_unextractable. revert Hin. unfold addSearchFields.
  destruct (findMax (env 0 c)) as [|maxIdDoc ?].
  { by intros [=]%list_elem_of_singleton. }
  destruct (Nat.eqb _ 0).
  { intros Hin. repeat (apply elem_of_cons in Hin as [[=]|Hin]).
    by apply elem_of_nil in Hin. }
  intros Hin. apply loop_throws; [|done..]. simpl. by repeat constructor.
Qed.

Lemma aborted_batch_witness :
  status (addSearchFields quiet 3 brokenMessages) = Aborted notAFunction
  ∧ last (events (addSearchFields quiet 3 brokenMessages))
    = Some (EvFetch {| q_lte := 2; q_gt := None |}
              (findBatch {| q_lte := 2; q_gt := None |} brokenMessages))
  ∧ Forall (λ kd, store (addSearchFields quiet 3 brokenMessages) !! kd.1 = Some kd.2)
      (findBatch {| q_lte := 2; q_gt := None |} brokenMessages).
Proof.
  apply (aborted_batch quiet 3 brokenMessages).
  - vm_compute. do 2 right. left.
  - vm_compute. right. left. repeat split; discriminate.
Defined.

Lemma migration_ends_witness :
  status (addSearchFields lateInsert 5 sampleMessages) ≠ OutOfFuel.
Proof.
  apply migration_ends. vm_compute. repeat constructor.
Defined.

Lemma filter_owner_witness :
  ∃ f q,
    prepareSearchFilter (λ s, s) dbMailboxesDown 1%N richPayload = Ok (f, q)
    ∧ Filter.user f = 1%N ∧ q = Some "hello".
Proof.
  eexists _, _. split; [reflexivity|].
  apply (filter_owner (λ s, s) dbMailboxesDown 1%N richPayload _ _ eq_refl).
Defined.

Lemma explicit_mailbox_witness :
  ∃ f, prepareSearchFilter (λ s, s) dbMailboxesDown 1%N richPayload
       = Ok (f, Some "hello")
       ∧ Filter.mailbox f = Some (MbExact 7%N).
Proof.
  apply (explicit_mailbox (λ s, s) dbMailboxesDown 1%N richPayload someUser 7%N
           eq_refl eq_refl).
Defined.

Lemma uid_attached_witness :
  ∃ f q,
    prepareSearchFilter (λ s, s) dbMailboxesDown 1%N richPayload = Ok (f, q)
    ∧ Filter.uid f = Some (UidRange (NFin 5) (Some (NFin 10))).
Proof.
  eexists _, _. split; [reflexivity|].
  apply (uid_attached (λ s, s) dbMailboxesDown 1%N richPayload _ _ eq_refl).
Defined.

Lemma searchable_forced_witness :
  ∃ f q,
    prepareSearchFilter (λ s, s) dbMailboxesDown 1%N richPayload = Ok (f, q)
    ∧ Filter.searchable f = Some true.
Proof.
  eexists _, _. split; [reflexivity|].
  apply (searchable_forced (λ s, s) dbMailboxesDown 1%N richPayload _ _ eq_refl).
Defined.

Lemma query_and_or_branches_witness :
  ∃ f q,
    prepareSearchFilter (λ s, s) dbMailboxesDown 1%N richPayload = Ok (f, q)
    ∧ Filter.text_ f = Some "hello"
    ∧ Filter.or_ f =
        Some [PRegex "search.fromName" "ann";
              POr [PEq "search.to" "b@c.org"; PEq "search.cc" "b@c.org"];
              PRegex "search.subjectWords" "^re"].
Proof.
  eexists _, _. split; [reflexivity|].
  apply (query_and_or_branches (λ s, s) dbMailboxesDown 1%N richPayload _ _ eq_refl).
Defined.

Lemma range_bounds_witness :
  ∃ f q,
    prepareSearchFilter (λ s, s) dbMailboxesDown 1%N richPayload = Ok (f, q)
    ∧ Filter.idate f = Some {| gte := Some 10%Z; lte := Some 20%Z |}
    ∧ Filter.size f = Some {| gte := None; lte := Some 100%Z |}.
Proof.
  eexists _, _. split; [reflexivity|].
  apply (range_bounds (λ s, s) dbMailboxesDown 1%N richPayload _ _ eq_refl).
Defined.

Lemma independent_predicates_witness :
  ∃ f q,
    prepareSearchFilter (λ s, s) dbMailboxesDown 1%N richPayload = Ok (f, q)
    ∧ Filter.thread f = Some 3%N
    ∧ Filter.flagged f = Some true
    ∧ Filter.ha f = Some true.
Proof.
  eexists _, _. split; [reflexivity|].
  apply (independent_predicates (λ s, s) dbMailboxesDown 1%N richPayload _ _ eq_refl).
Defined.
